(** * bitcask/flock: an exclusive file lock that removes its lock file on release

    The Go package [flock] embeds [*flockExt.Flock] (github.com/gofrs/flock)
    and overrides one method:
<<
      func New(path string) *Flock { return &Flock{flockExt.New(path)} }
      func (l *Flock) Unlock() error {
              os.Remove(l.Path())
              return l.Flock.Unlock()
      }
>>
    The development has these layers:
    - [os]: the system calls the code issues, as a signature of requests and
      answers, programs over that signature, and a machine that answers them;
    - [flockExt]: the interface of the embedded lock (a type class) and the
      gofrs implementation of it on top of [os];
    - [flock]: the package itself, written once for every implementation of
      the embedded lock;
    - [sched]: several handles driven by an explicit schedule, one system
      call at a time;
    - [protocol]: the discipline callers keep as long as nobody removes the
      lock file, and the invariant it gives;
    - [scenario]: the tests of the repository and the runs the theorems
      speak about. *)

From stdpp Require Import base option functions gmap strings list.

(* ================================================================== *)
(** ** System calls *)
(* ================================================================== *)
Module os.

(** Go's [error] is [option Errno]; [None] is [nil]. *)
Inductive Errno := EWOULDBLOCK | ENOENT | EACCES | EBADF | EIO.

#[global] Instance Errno_eq_dec : EqDecision Errno.
Proof. solve_decision. Defined.

Abbreviation error := (option Errno).

(** The second argument of [syscall.Flock]: [LOCK_EX], [LOCK_EX|LOCK_NB]
    and [LOCK_UN]. *)
Inductive how := LOCK_EX | LOCK_EX_NB | LOCK_UN.

#[global] Instance how_eq_dec : EqDecision how.
Proof. solve_decision. Defined.

(** The requests.  [SysOpen name] is
    [os.OpenFile(name, O_CREATE|O_RDONLY, 0600)]; [SysUnlink name] is
    [os.Remove(name)] on a regular file. *)
Inductive sys :=
| SysOpen (name : string)
| SysFlock (fd : nat) (h : how)
| SysClose (fd : nat)
| SysUnlink (name : string).

#[global] Instance sys_eq_dec : EqDecision sys.
Proof. solve_decision. Defined.

(** What each request answers. *)
Definition resp (s : sys) : Type :=
  match s with
  | SysOpen _ => (nat + Errno)%type
  | SysFlock _ _ => error
  | SysClose _ => unit
  | SysUnlink _ => error
  end.

(** Programs: a result, or a request and what to do with its answer. *)
Inductive prog (A : Type) : Type :=
| Ret (a : A)
| Vis (s : sys) (k : resp s → prog A).
Arguments Ret {A} a.
Arguments Vis {A} s k.

Fixpoint bind {A B} (p : prog A) (f : A → prog B) : prog B :=
  match p with
  | Ret a => f a
  | Vis s k => Vis s (λ r, bind (k r) f)
  end.

Definition call (s : sys) : prog (resp s) := Vis s Ret.

#[global] Instance prog_ret : MRet prog := @Ret.
#[global] Instance prog_bind : MBind prog := λ A B f p, bind p f.

(** Modelled from the spec: the operating system's file names and advisory
    locks, which the package reaches through [os.Remove] and the gofrs lock
    and which are no part of the repository.  "[U]nlinking a path does not
    invalidate locks held via existing open handles on the already-open
    file" and "the artifact's mere existence is not itself the lock": a lock
    belongs to a file, not to a name.  [dirents] maps names to files,
    [ofiles] maps open descriptions to files, and [flocks] maps a file to the
    open description that holds it exclusively.  A name in [readonly] lies in
    a directory that refuses creation and removal ("path unusable (bad
    permissions ...)"). *)
Record OS := mkOS {
  dirents : gmap string nat;
  readonly : gset string;
  ofiles : gmap nat nat;
  flocks : gmap nat nat;
  next_ino : nat;
  next_fd : nat
}.

Definition boot : OS := mkOS ∅ ∅ ∅ ∅ 0 0.

(** Modelled from the spec: [open(2)] with [O_CREAT], as the lock opens its
    file ("may create the backing artifact at the path if it does not
    already exist"): an existing name is opened, a missing one is
    created unless its directory refuses. *)
Definition sys_open (name : string) (w : OS) : (nat + Errno) * OS :=
  match dirents w !! name with
  | Some ino =>
      (inl (next_fd w),
       mkOS (dirents w) (readonly w) (<[next_fd w := ino]> (ofiles w))
            (flocks w) (next_ino w) (S (next_fd w)))
  | None =>
      if decide (name ∈ readonly w) then (inr EACCES, w)
      else
        (inl (next_fd w),
         mkOS (<[name := next_ino w]> (dirents w)) (readonly w)
              (<[next_fd w := next_ino w]> (ofiles w))
              (flocks w) (S (next_ino w)) (S (next_fd w)))
  end.

Definition set_flocks (m : gmap nat nat) (w : OS) : OS :=
  mkOS (dirents w) (readonly w) (ofiles w) m (next_ino w) (next_fd w).

(** Modelled from the spec: [flock(2)], the advisory-lock primitive.  [None]
    means the call does not return: a blocking request
    for a file that another open description holds. *)
Definition sys_flock (fd : nat) (h : how) (w : OS) : option (error * OS) :=
  match ofiles w !! fd with
  | None => Some (Some EBADF, w)
  | Some ino =>
      match h with
      | LOCK_UN =>
          if decide (flocks w !! ino = Some fd)
          then Some (None, set_flocks (delete ino (flocks w)) w)
          else Some (None, w)
      | LOCK_EX | LOCK_EX_NB =>
          match flocks w !! ino with
          | None => Some (None, set_flocks (<[ino := fd]> (flocks w)) w)
          | Some owner =>
              if decide (owner = fd) then Some (None, w)
              else if decide (h = LOCK_EX_NB) then Some (Some EWOULDBLOCK, w)
              else None
          end
      end
  end.

(** Modelled from the spec: [close(2)].  The description goes away, and with
    it the lock it held ("the OS primitive is expected to release the lock
    automatically when the holding process's relevant handle is closed"). *)
Definition sys_close (fd : nat) (w : OS) : OS :=
  match ofiles w !! fd with
  | None => w
  | Some ino =>
      mkOS (dirents w) (readonly w) (delete fd (ofiles w))
           (if decide (flocks w !! ino = Some fd) then delete ino (flocks w)
            else flocks w)
           (next_ino w) (next_fd w)
  end.

(** Modelled from the spec: [unlink(2)], which [os.Remove] comes down to on
    a regular file.  Only the name goes away; open descriptions of the file
    and the lock on it stay. *)
Definition sys_unlink (name : string) (w : OS) : error * OS :=
  match dirents w !! name with
  | None => (Some ENOENT, w)
  | Some _ =>
      if decide (name ∈ readonly w) then (Some EACCES, w)
      else
        (None,
         mkOS (delete name (dirents w)) (readonly w) (ofiles w) (flocks w)
              (next_ino w) (next_fd w))
  end.

(** Modelled from the spec: the machine's answer to one request. *)
Definition answer (s : sys) (w : OS) : option (resp s * OS) :=
  match s return option (resp s * OS) with
  | SysOpen name => Some (sys_open name w)
  | SysFlock fd h => sys_flock fd h w
  | SysClose fd => Some (tt, sys_close fd w)
  | SysUnlink name => Some (sys_unlink name w)
  end.

Inductive result (A : Type) := Done (a : A) | Blocked.
Arguments Done {A} a.
Arguments Blocked {A}.

(** A program run to its end with nobody else running, on any machine
    [ans] that answers the requests: the result, the machine afterwards and
    the system calls that were answered, in order. *)
Section run.
Context {W : Type} (ans : ∀ s : sys, W → option (resp s * W)).

Fixpoint run {A} (p : prog A) (w : W) : result A * W * list sys :=
  match p with
  | Ret a => (Done a, w, [])
  | Vis s k =>
      match ans s w with
      | Some (r, w') =>
          let '(x, w'', t) := run (k r) w' in (x, w'', s :: t)
      | None => (Blocked, w, [])
      end
  end.
End run.

Definition result_map {A B} (f : A → B) (x : result A) : result B :=
  match x with
  | Done a => Done (f a)
  | Blocked => Blocked
  end.

(** What a run returned, where it left the machine, what it asked. *)
Definition value {A W} (x : result A * W * list sys) : result A := x.1.1.
Definition world {A W} (x : result A * W * list sys) : W := x.1.2.
Definition trace {A W} (x : result A * W * list sys) : list sys := x.2.

(** Going on with [f] after a run. *)
Definition run_then {A B W} (ans : ∀ s : sys, W → option (resp s * W))
    (x : result A * W * list sys) (f : A → prog B) : result B * W * list sys :=
  match x with
  | (Done a, w, t) => let '(y, w', t') := run ans (f a) w in (y, w', t ++ t')
  | (Blocked, w, t) => (Blocked, w, t)
  end.

(** Machines that the requests can produce from [boot]: files, descriptions
    and locks are numbered below the counters, and a lock is held through an
    open description of the locked file. *)
Record wf (w : OS) : Prop := {
  wf_dirents : ∀ name ino, dirents w !! name = Some ino → ino < next_ino w;
  wf_ofiles : ∀ fd ino,
    ofiles w !! fd = Some ino → fd < next_fd w ∧ ino < next_ino w;
  wf_flocks : ∀ ino fd, flocks w !! ino = Some fd → ofiles w !! fd = Some ino
}.

(** Modelled from the spec: [os.Remove] on the lock file, from Go's standard
    library. *)
Definition Remove (name : string) : prog error := call (SysUnlink name).

End os.

Import os.

(* ================================================================== *)
(** ** The embedded lock, github.com/gofrs/flock *)
(* ================================================================== *)
Module flockExt.

(** The methods of [*flockExt.Flock] that the package uses or promotes.  A
    method of a pointer receiver returns the handle as it leaves it. *)
Class Flock (F : Type) := {
  New : string → prog F;
  Path : F → string;
  TryLock : F → prog (bool * error * F);
  Lock : F → prog (error * F);
  Unlock : F → prog (error * F)
}.

(** Modelled from the spec: the handle of the gofrs lock, whose source is not
    in the repository.  "Lock handle: identifies a filesystem path and holds
    whatever OS-level handle/descriptor is needed to manipulate the advisory
    lock on that path": the path, the open description if any, and whether
    this handle holds the lock. *)
Record gofrs := mk { path : string; fh : option nat; l : bool }.

#[global] Instance gofrs_eq_dec : EqDecision gofrs.
Proof. solve_decision. Defined.

(** Modelled from the spec: construction, absent from the repository.
    "Construction performs no I/O and cannot fail." *)
Definition gofrs_New (name : string) : prog gofrs := mret (mk name None false).

(** Modelled from the spec: part of the acquisitions below.  A handle that
    did not get the lock does not keep its description ("the caller owns
    nothing"). *)
Definition ensureFhState (f : gofrs) : prog gofrs :=
  match fh f with
  | Some fd =>
      if l f then mret f
      else _ ← call (SysClose fd); mret (mk (path f) None (l f))
  | None => mret f
  end.

(** Modelled from the spec: part of try-acquire, the one non-blocking
    request on an open description. *)
Definition try_fd (fd : nat) (f : gofrs) : prog (bool * error * gofrs) :=
  e ← call (SysFlock fd LOCK_EX_NB);
  match e with
  | None => mret (true, None, mk (path f) (fh f) true)
  | Some EWOULDBLOCK => mret (false, None, f)
  | Some err => mret (false, Some err, f)
  end.

(** Modelled from the spec: try-acquire of the gofrs lock, absent from the
    repository.  "attempts exactly one OS-level exclusive-lock request without
    waiting"; "may create the backing artifact at the path if it does not
    already exist"; "an accompanying error value may be absent even on
    failure"; a handle that already holds succeeds trivially.  The real
    lock retries once after [EIO] or [EBADF] with the file reopened
    read-write; the machine gives [EBADF] only for a description that is not
    open, and the retry is left out. *)
Definition gofrs_TryLock (f : gofrs) : prog (bool * error * gofrs) :=
  if l f then mret (true, None, f)
  else
    match fh f with
    | Some fd => try_fd fd f
    | None =>
        r ← call (SysOpen (path f));
        match r with
        | inr err => mret (false, Some err, f)
        | inl fd =>
            '(ok, e, f1) ← try_fd fd (mk (path f) (Some fd) (l f));
            f2 ← ensureFhState f1;
            mret (ok, e, f2)
        end
    end.

(** Modelled from the spec: part of the blocking acquire, the one blocking
    request on an open description. *)
Definition lock_fd (fd : nat) (f : gofrs) : prog (error * gofrs) :=
  e ← call (SysFlock fd LOCK_EX);
  match e with
  | None => mret (None, mk (path f) (fh f) true)
  | Some err => mret (Some err, f)
  end.

(** Modelled from the spec: blocking acquire of the gofrs lock, absent from
    the repository.  "blocks the calling thread until the lock becomes
    available, then acquires it". *)
Definition gofrs_Lock (f : gofrs) : prog (error * gofrs) :=
  if l f then mret (None, f)
  else
    match fh f with
    | Some fd => lock_fd fd f
    | None =>
        r ← call (SysOpen (path f));
        match r with
        | inr err => mret (Some err, f)
        | inl fd =>
            '(e, f1) ← lock_fd fd (mk (path f) (Some fd) (l f));
            f2 ← ensureFhState f1;
            mret (e, f2)
        end
    end.

(** Modelled from the spec: release of the gofrs lock, absent from the
    repository.  A handle that does not hold returns [nil] and does nothing;
    a holder gives the lock back and closes its description. *)
Definition gofrs_Unlock (f : gofrs) : prog (error * gofrs) :=
  if l f then
    match fh f with
    | None => mret (None, f)
    | Some fd =>
        e ← call (SysFlock fd LOCK_UN);
        match e with
        | Some err => mret (Some err, f)
        | None => _ ← call (SysClose fd); mret (None, mk (path f) None false)
        end
    end
  else mret (None, f).

#[global] Instance gofrs_Flock : Flock gofrs := {|
  New := gofrs_New;
  Path := path;
  TryLock := gofrs_TryLock;
  Lock := gofrs_Lock;
  Unlock := gofrs_Unlock
|}.

(** A lock whose release always fails and touches nothing, to exercise the
    error path of the package. *)
Definition stuck_Flock : Flock string := {|
  New := λ name, mret name;
  Path := λ name, name;
  TryLock := λ name, mret (false, Some EIO, name);
  Lock := λ name, mret (Some EIO, name);
  Unlock := λ name, mret (Some EIO, name)
|}.

End flockExt.

(* ================================================================== *)
(** ** The package: src/flock/flock.go *)
(* ================================================================== *)
Module flock.

Section Flock.
Context {F : Type} {embedded : flockExt.Flock F}.

(** [type Flock struct { *flockExt.Flock }] *)
Record Flock := mk { ext : F }.

(** [func New(path string) *Flock] *)
Definition New (path : string) : prog Flock :=
  f ← flockExt.New path; mret (mk f).

(** The promoted methods [Path], [TryLock] and [Lock]. *)
Definition Path (l : Flock) : string := flockExt.Path (ext l).

Definition TryLock (l : Flock) : prog (bool * error * Flock) :=
  '(ok, e, f) ← flockExt.TryLock (ext l); mret (ok, e, mk f).

Definition Lock (l : Flock) : prog (error * Flock) :=
  '(e, f) ← flockExt.Lock (ext l); mret (e, mk f).

(** [func (l *Flock) Unlock() error]: the result of [os.Remove] is
    dropped. *)
Definition Unlock (l : Flock) : prog (error * Flock) :=
  _ ← os.Remove (Path l);
  '(e, f) ← flockExt.Unlock (ext l); mret (e, mk f).

(** The release as section 4.1 of the specification words it: "releases
    the OS-level lock for the path the handle holds, then deletes the
    backing artifact at that path". *)
Definition Unlock_then_Remove (l : Flock) : prog (error * Flock) :=
  '(e, f) ← flockExt.Unlock (ext l);
  _ ← os.Remove (Path l);
  mret (e, mk f).
End Flock.

Arguments Flock F : clear implicits.
Arguments mk {F} ext.

End flock.

(* ================================================================== *)
(** ** Several handles, one system call at a time *)
(* ================================================================== *)
Module sched.

Abbreviation Handle := (flock.Flock flockExt.gofrs).

(** What a caller can ask of its handle, and what it gets back.
    [OpFlockUnlock] is [h.Flock.Unlock()], the embedded release called past
    the package's own. *)
Inductive op := OpTryLock | OpLock | OpUnlock | OpFlockUnlock.
Inductive ret := RTry (ok : bool) (e : error) | RErr (e : error).

#[global] Instance ret_eq_dec : EqDecision ret.
Proof. solve_decision. Defined.

Definition method (o : op) (h : Handle) : prog (ret * Handle) :=
  match o with
  | OpTryLock => '(ok, e, h') ← flock.TryLock h; mret (RTry ok e, h')
  | OpLock => '(e, h') ← flock.Lock h; mret (RErr e, h')
  | OpUnlock => '(e, h') ← flock.Unlock h; mret (RErr e, h')
  | OpFlockUnlock =>
      '(e, f) ← flockExt.Unlock (flock.ext h); mret (RErr e, flock.mk f)
  end.

(** A caller: its handle, the method call it is inside of (if any), the calls
    it still has to make, and the results it has seen. *)
Record thread := mkThread {
  handle : Handle;
  pc : option (prog (ret * Handle));
  todo : list op;
  rets : list ret
}.

(** The handle [New] returns on the gofrs lock. *)
Definition fresh_handle (name : string) : Handle :=
  flock.mk (flockExt.mk name None false).

Definition spawn (name : string) (script : list op) : thread :=
  mkThread (fresh_handle name) None script [].

(** A method that has returned hands its result and the handle back. *)
Definition settle (th : thread) (p : prog (ret * Handle)) : thread :=
  match p with
  | Ret (r, h) => mkThread h None (todo th) (rets th ++ [r])
  | Vis _ _ => mkThread (handle th) (Some p) (todo th) (rets th)
  end.

(** The program a caller is at: the call in progress, or the next one. *)
Definition fetch (th : thread) : option (thread * prog (ret * Handle)) :=
  match pc th with
  | Some p => Some (th, p)
  | None =>
      match todo th with
      | [] => None
      | o :: rest =>
          Some (mkThread (handle th) None rest (rets th), method o (handle th))
      end
  end.

Definition config : Type := list thread * OS * list (nat * sys).

Definition start (ts : list thread) (w : OS) : config := (ts, w, []).

(** Caller [i] makes its next system call (a method that needs none returns
    at once).  [None]: there is no such caller, it has nothing left to do, or
    its call blocks. *)
Definition step (i : nat) (c : config) : option config :=
  let '(ts, w, t) := c in
  th ← ts !! i;
  '(th', p) ← fetch th;
  match p with
  | Ret _ => Some (<[i := settle th' p]> ts, w, t)
  | Vis s k =>
      '(r, w') ← answer s w;
      Some (<[i := settle th' (k r)]> ts, w', t ++ [(i, s)])
  end.

Fixpoint exec (schedule : list nat) (c : config) : option config :=
  match schedule with
  | [] => Some c
  | i :: rest => c' ← step i c; exec rest c'
  end.

(** The handle's description holds the exclusive lock of its file. *)
Definition owns (w : OS) (f : flockExt.gofrs) : bool :=
  match flockExt.fh f with
  | None => false
  | Some fd =>
      match ofiles w !! fd with
      | None => false
      | Some ino => bool_decide (flocks w !! ino = Some fd)
      end
  end.

(** The held state: the handle says so and the machine agrees. *)
Definition held (w : OS) (h : Handle) : bool :=
  flockExt.l (flock.ext h) && owns w (flock.ext h).

(** How many callers hold the lock of [name]. *)
Definition holders (name : string) (c : config) : nat :=
  let '(ts, w, _) := c in
  length (filter (λ th, bool_decide (flock.Path (handle th) = name)
                        && held w (handle th) = true) ts).

Definition results (c : config) : list (list ret) :=
  let '(ts, _, _) := c in rets <$> ts.

Definition idle (c : config) : bool :=
  let '(ts, _, _) := c in
  forallb (λ th, bool_decide (pc th = None ∧ todo th = [])) ts.

End sched.

(* ================================================================== *)
(** ** The discipline of the embedded lock *)
(* ================================================================== *)
Module protocol.
Import sched.

(** Where a caller stands with its description of the lock file: none, one
    that does not hold the lock, one that holds it. *)
Inductive tstate := Closed | Open (fd : nat) | Locked (fd : nat).

Definition fd_of (σ : tstate) : option nat :=
  match σ with
  | Closed => None
  | Open fd | Locked fd => Some fd
  end.

(** The handle of a caller that holds the lock through [fd]. *)
Definition handle_on (name : string) (fd : nat) : Handle :=
  flock.mk (flockExt.mk name (Some fd) true).

(** What one system call may be from state [σ], and the state each answer
    leads to; [rec] is the discipline of the rest of the program.  No call
    removes a name. *)
Definition call_ok (name : string) (σ : tstate) (s : sys)
    : (tstate → resp s → Prop) → Prop :=
  match s as s0 return (tstate → resp s0 → Prop) → Prop with
  | SysOpen n => λ rec,
      n = name ∧ σ = Closed
      ∧ (∀ fd, rec (Open fd) (inl fd)) ∧ (∀ e, rec Closed (inr e))
  | SysFlock fd LOCK_UN => λ rec,
      σ = Locked fd ∧ rec (Open fd) None ∧ (∀ e, rec (Locked fd) (Some e))
  | SysFlock fd _ => λ rec,
      σ = Open fd ∧ rec (Locked fd) None ∧ (∀ e, rec (Open fd) (Some e))
  | SysClose fd => λ rec, σ = Open fd ∧ rec Closed tt
  | SysUnlink _ => λ _, False
  end.

(** A handle at rest: unlocked without a description, or locked with one. *)
Definition at_rest (name : string) (σ : tstate) (h : Handle) : Prop :=
  match σ with
  | Closed => h = fresh_handle name
  | Locked fd => h = handle_on name fd
  | Open _ => False
  end.

(** A method call that keeps to the discipline from state [σ] on. *)
Fixpoint proto (name : string) (σ : tstate) (p : prog (ret * Handle)) : Prop :=
  match p with
  | Ret (_, h) => at_rest name σ h
  | Vis s k => call_ok name σ s (λ σ' r, proto name σ' (k r))
  end.

(** What the machine holds for a caller in state [σ]: its description is
    open on the file that [name] names, and holds that file's lock or not. *)
Definition facts (name : string) (w : OS) (σ : tstate) : Prop :=
  match σ with
  | Closed => True
  | Open fd =>
      ∃ ino, dirents w !! name = Some ino ∧ ofiles w !! fd = Some ino
             ∧ flocks w !! ino ≠ Some fd
  | Locked fd =>
      ∃ ino, dirents w !! name = Some ino ∧ ofiles w !! fd = Some ino
             ∧ flocks w !! ino = Some fd
  end.

(** The handle a caller had when it entered its call: unlocked, or the one
    of its description, or a stale one whose description is closed for
    good. *)
Definition hcond (name : string) (w : OS) (σ : tstate) (h : Handle) : Prop :=
  h = fresh_handle name
  ∨ ∃ fd, h = handle_on name fd
          ∧ (σ = Open fd ∨ σ = Locked fd
             ∨ (ofiles w !! fd = None ∧ fd < next_fd w)).

(** A caller that never calls the package's own [Unlock]. *)
Definition thread_ok (name : string) (w : OS) (th : thread) (σ : tstate)
    : Prop :=
  Forall (λ o, o ≠ OpUnlock) (todo th)
  ∧ hcond name w σ (handle th)
  ∧ match pc th with
    | None => at_rest name σ (handle th)
    | Some p => proto name σ p
    end
  ∧ facts name w σ.

(** The description a system call works on. *)
Definition touches (s : sys) : option nat :=
  match s with
  | SysFlock fd _ | SysClose fd => Some fd
  | SysOpen _ | SysUnlink _ => None
  end.

(** The invariant of a run: the machine is well formed, every caller keeps
    to the discipline, and no two callers share a description. *)
Definition inv (name : string) (c : config) : Prop :=
  let '(ts, w, _) := c in
  wf w
  ∧ ∃ σ : nat → tstate,
      (∀ i th, ts !! i = Some th → thread_ok name w th (σ i))
      ∧ (∀ i j fd, i < length ts → j < length ts →
           fd_of (σ i) = Some fd → fd_of (σ j) = Some fd → i = j).

End protocol.

(* ================================================================== *)
(** ** Scenarios *)
(* ================================================================== *)
Module scenario.
Import sched.

(** [testLockPath] of src/flock/flock_test.go. *)
Definition testLockPath : string := "/tmp/bitcask_unit_test_lock".

(** [TestTryLock] of src/flock/flock_test.go, after its initial
    [os.Remove]: the five calls and what each returned. *)
Definition TestTryLock (name : string) : prog (list ret) :=
  lock1 ← flock.New (F := flockExt.gofrs) name;
  lock2 ← flock.New (F := flockExt.gofrs) name;
  '(locked1, err1, lock1) ← flock.TryLock lock1;
  '(locked2, err2, lock2) ← flock.TryLock lock2;
  '(err3, lock1) ← flock.Unlock lock1;
  '(locked4, err4, lock2) ← flock.TryLock lock2;
  '(err5, lock2) ← flock.Unlock lock2;
  mret [RTry locked1 err1; RTry locked2 err2; RErr err3;
        RTry locked4 err4; RErr err5].

(** A handle that never held the lock is released while another one holds
    it, and then tries again. *)
Definition stray_release (name : string) : prog (list ret * Handle * Handle) :=
  lock1 ← flock.New (F := flockExt.gofrs) name;
  lock2 ← flock.New (F := flockExt.gofrs) name;
  '(locked1, err1, lock1) ← flock.TryLock lock1;
  '(err2, lock2) ← flock.Unlock lock2;
  '(locked3, err3, lock2) ← flock.TryLock lock2;
  mret ([RTry locked1 err1; RErr err2; RTry locked3 err3], lock1, lock2).

(** A handle is released twice; between the two releases another handle
    takes the lock, and after them a third one tries. *)
Definition double_release (name : string)
    : prog (list ret * Handle * Handle) :=
  lock1 ← flock.New (F := flockExt.gofrs) name;
  lock2 ← flock.New (F := flockExt.gofrs) name;
  lock3 ← flock.New (F := flockExt.gofrs) name;
  '(locked1, err1, lock1) ← flock.TryLock lock1;
  '(err2, lock1) ← flock.Unlock lock1;
  '(locked3, err3, lock2) ← flock.TryLock lock2;
  '(err4, lock1) ← flock.Unlock lock1;
  '(locked5, err5, lock3) ← flock.TryLock lock3;
  mret ([RTry locked1 err1; RErr err2; RTry locked3 err3; RErr err4;
         RTry locked5 err5], lock2, lock3).

(** Three callers in the manner of [lockAndCount] of the test file: each
    creates its own handle on the test path and tries once; the first one
    releases what it got. *)
Definition racers : list thread :=
  [spawn testLockPath [OpTryLock; OpUnlock];
   spawn testLockPath [OpTryLock];
   spawn testLockPath [OpTryLock]].

(** Caller 1 opens the lock file while caller 0 holds the lock and asks for
    the lock only after caller 0 has released; then caller 2 tries. *)
Definition race_schedule : list nat := [0; 0; 1; 0; 0; 0; 1; 2; 2].

(** The same three callers, the first of which releases with the embedded
    [Unlock] only, and the same interleaving without the removal. *)
Definition racers_embedded : list thread :=
  [spawn testLockPath [OpTryLock; OpFlockUnlock];
   spawn testLockPath [OpTryLock];
   spawn testLockPath [OpTryLock]].

Definition race_schedule_embedded : list nat := [0; 0; 1; 0; 0; 1; 2; 2; 2].

(** The two callers of [TestLock] of src/flock/flock_test.go. *)
Definition lockers : list thread :=
  [spawn testLockPath [OpLock; OpUnlock];
   spawn testLockPath [OpLock; OpUnlock]].

(** Scripts that release with the embedded [Unlock] only. *)
Definition embedded_only (scripts : list (list op)) : Prop :=
  Forall (Forall (λ o, o ≠ OpUnlock)) scripts.

(** Mutual exclusion on [name], as section 4.1 of the specification words
    it: at most one handle in the held state at any instant, "under
    arbitrary interleavings of try-acquire, acquire, and release calls". *)
Definition exclusive (name : string) : Prop :=
  ∀ (scripts : list (list op)) (schedule : list nat) (c : config),
    exec schedule (start (spawn name <$> scripts) boot) = Some c →
    holders name c ≤ 1.

(** The machine after one successful [TryLock] on the test path, and the
    handle that holds the lock. *)
Definition holding : OS :=
  world (run answer (flock.TryLock (fresh_handle testLockPath)) boot).

Definition holder : Handle :=
  flock.mk (flockExt.mk testLockPath (Some 0) true).

(** A lock file left behind in a directory that has since become
    read-only, and the machine after a successful [TryLock] on it. *)
Definition sealed : OS := mkOS {[testLockPath := 0]} {[testLockPath]} ∅ ∅ 1 0.

Definition sealed_holding : OS :=
  world (run answer (flock.TryLock (fresh_handle testLockPath)) sealed).

End scenario.

(* ================================================================== *)
(** ** The test helpers: src/flock/flock_test.go *)
(* ================================================================== *)
Module tests.
Import sched scenario.

(** Go's [int64], and [int] on a 64-bit platform: a value in
    [-2^63, 2^63), with wrap-around on overflow. *)
Definition int64 (z : Z) : Prop := (- 2 ^ 63 ≤ z < 2 ^ 63)%Z.

Definition wrap64 (z : Z) : Z := ((z + 2 ^ 63) `mod` 2 ^ 64 - 2 ^ 63)%Z.

(** [atomic.AddInt64(&lockerCount, delta)]: the new value of the counter,
    which is also what the call returns. *)
Definition AddInt64 (lockerCount delta : Z) : Z := wrap64 (lockerCount + delta).

(** [lockAndCount] with nobody else running, on the machine [w] and the
    shared counter [lockerCount]: what it returns, the machine and the
    counter afterwards, and its system calls.  The deferred [lock.Unlock()]
    runs after both counter updates. *)
Definition lockAndCount (lockpath : string) (w : OS) (lockerCount : Z)
    : result Z * OS * Z * list sys :=
  match run answer (lock ← flock.New (F := flockExt.gofrs) lockpath;
                    flock.TryLock lock) w with
  | (Blocked, w1, t1) => (Blocked, w1, lockerCount, t1)
  | (Done (ok, _, lock), w1, t1) =>
      if negb ok then (Done 0%Z, w1, lockerCount, t1)
      else
        let x := AddInt64 lockerCount 1 in
        let lockerCount1 := x in
        let lockerCount2 := AddInt64 lockerCount1 (-1) in
        let '(r, w2, t2) := run answer (flock.Unlock lock) w1 in
        (result_map (λ _, x) r, w2, lockerCount2, t1 ++ t2)
  end.

(** [lockAndCount] of the earlier test (package bitcask, second part of
    src/flock/flock_test.go): the gofrs lock itself, released by a deferred
    [os.Remove(lock.Path()); lock.Unlock()]. *)
Definition lockAndCount_bitcask (lockpath : string) (w : OS) (lockerCount : Z)
    : result Z * OS * Z * list sys :=
  match run answer (lock ← flockExt.New (F := flockExt.gofrs) lockpath;
                    flockExt.TryLock lock) w with
  | (Blocked, w1, t1) => (Blocked, w1, lockerCount, t1)
  | (Done (ok, _, lock), w1, t1) =>
      if negb ok then (Done 0%Z, w1, lockerCount, t1)
      else
        let x := AddInt64 lockerCount 1 in
        let lockerCount1 := x in
        let lockerCount2 := AddInt64 lockerCount1 (-1) in
        let '(r, w2, t2) :=
          run answer (_ ← os.Remove (flockExt.Path lock);
                      flockExt.Unlock lock) w1 in
        (result_map (λ _, x) r, w2, lockerCount2, t1 ++ t2)
  end.

(** [k] calls of [lockAndCount] in a row: the values returned, the machine
    and the counter at the end. *)
Fixpoint lockAndCount_times (k : nat) (lockpath : string) (w : OS)
    (lockerCount : Z) : list (result Z) * OS * Z :=
  match k with
  | O => ([], w, lockerCount)
  | S k' =>
      let '(x, w1, n1, _) := lockAndCount lockpath w lockerCount in
      let '(xs, w2, n2) := lockAndCount_times k' lockpath w1 n1 in
      (x :: xs, w2, n2)
  end.

(** What one turn of the loop of [locker] meets: the timeout channel is
    closed, or [lockAndCount] returns [x]. *)
Inductive obs := Timeout | Count (x : Z).

#[global] Instance obs_eq_dec : EqDecision obs.
Proof. solve_decision. Defined.

(** The local variables of [locker] when the loop is left. *)
Record verdict := mkVerdict { timedOut : bool; failCount : Z; max : Z }.

(** The loop [lockloop] of [locker] over what its turns meet; [None] when
    the loop is still running after the last of them.  The second component
    is what was not looked at. *)
Fixpoint lockloop (turns : list obs) (successfulLockCount failCount max : Z)
    : option (verdict * list obs) :=
  if (0 <? successfulLockCount)%Z then
    match turns with
    | [] => None
    | Timeout :: rest => Some (mkVerdict true failCount max, rest)
    | Count x :: rest =>
        let successfulLockCount :=
          if (0 <? x)%Z then (successfulLockCount - 1)%Z
          else successfulLockCount in
        if (1 <? x)%Z then
          lockloop rest successfulLockCount (wrap64 (failCount + 1))
                   (if (max <? x)%Z then x else max)
        else lockloop rest successfulLockCount failCount max
    end
  else Some (mkVerdict false failCount max, turns).

(** [locker]: [timedOut := false; failCount := 0; max := int64(0)], then the
    loop. *)
Definition locker (turns : list obs) (successfulLockCount : Z)
    : option (verdict * list obs) :=
  lockloop turns successfulLockCount 0 0.

(** Whether [locker] calls [t.Fail()]. *)
Definition Fail (v : verdict) : bool :=
  timedOut v || (0 <? failCount v)%Z.

(** The values of [lockAndCount] among some turns. *)
Definition counts (turns : list obs) : list Z :=
  omap (λ o, match o with Count x => Some x | Timeout => None end) turns.




End tests.

Import sched protocol scenario.

(* ================================================================== *)
(** ** Running programs *)
(* ================================================================== *)
Section run_lemmas.
Context {W : Type} (ans : ∀ s : sys, W → option (resp s * W)).

Lemma run_bind {A B} (p : prog A) (f : A → prog B) (w : W) :
  run ans (p ≫= f) w = run_then ans (run ans p w) f.
Proof.
  revert w. induction p as [a | s k IH]; intros w.
  - cbn. by destruct (run ans (f a) w) as [[y w'] t'].
  - change (Vis s k ≫= f) with (Vis s (λ r, k r ≫= f)). cbn.
    destruct (ans s w) as [[r w1] |]; [| done].
    rewrite IH. destruct (run ans (k r) w1) as [[[a |] w2] t]; cbn; [| done].
    by destruct (run ans (f a) w2) as [[y w3] t'].
Qed.

Lemma run_bind_Done {A B} (p : prog A) (f : A → prog B) w a w1 t1 :
  run ans p w = (Done a, w1, t1) →
  run ans (p ≫= f) w =
  let '(y, w2, t2) := run ans (f a) w1 in (y, w2, t1 ++ t2).
Proof. intros Hp. by rewrite run_bind, Hp. Qed.

Lemma ret_bind {A B} (a : A) (f : A → prog B) : mret a ≫= f = f a.
Proof. done. Qed.

Lemma run_Remove (name : string) (w : W) :
  run ans (os.Remove name) w =
  match ans (SysUnlink name) w with
  | Some (r, w') => (Done r, w', [SysUnlink name])
  | None => (Blocked, w, [])
  end.
Proof. cbn. by destruct (ans (SysUnlink name) w) as [[r w'] |]. Qed.

(** A property of the machine that every answer keeps is kept by a run. *)
Lemma run_invariant (I : W → Prop) {A} (p : prog A) (w : W) :
  (∀ s w r w', ans s w = Some (r, w') → I w → I w') →
  I w → I (world (run ans p w)).
Proof.
  intros Hans. revert w. induction p as [a | s k IH]; intros w Hw; [done |].
  cbn. destruct (ans s w) as [[r w1] |] eqn:Hs; [| done].
  specialize (IH r w1 (Hans _ _ _ _ Hs Hw)).
  by destruct (run ans (k r) w1) as [[x w2] t].
Qed.
End run_lemmas.

(* ================================================================== *)
(** ** The machine *)
(* ================================================================== *)

Lemma sys_open_absent name w :
  dirents w !! name = None → name ∉ readonly w →
  sys_open name w =
  (inl (next_fd w),
   mkOS (<[name := next_ino w]> (dirents w)) (readonly w)
        (<[next_fd w := next_ino w]> (ofiles w)) (flocks w)
        (S (next_ino w)) (S (next_fd w))).
Proof. intros Hd Hro. unfold sys_open. by rewrite Hd, decide_False. Qed.

Lemma sys_open_present name w ino :
  dirents w !! name = Some ino →
  sys_open name w =
  (inl (next_fd w),
   mkOS (dirents w) (readonly w) (<[next_fd w := ino]> (ofiles w)) (flocks w)
        (next_ino w) (S (next_fd w))).
Proof. intros Hd. unfold sys_open. by rewrite Hd. Qed.

Lemma sys_flock_free fd w ino :
  ofiles w !! fd = Some ino → flocks w !! ino = None →
  sys_flock fd LOCK_EX_NB w =
  Some (None, set_flocks (<[ino := fd]> (flocks w)) w).
Proof. intros Hof Hfl. unfold sys_flock. by rewrite Hof, Hfl. Qed.

Lemma sys_flock_busy fd w ino owner :
  ofiles w !! fd = Some ino → flocks w !! ino = Some owner → owner ≠ fd →
  sys_flock fd LOCK_EX_NB w = Some (Some EWOULDBLOCK, w).
Proof.
  intros Hof Hfl Hne. unfold sys_flock. rewrite Hof, Hfl.
  by rewrite decide_False, decide_True.
Qed.

Lemma sys_flock_release fd w ino :
  ofiles w !! fd = Some ino → flocks w !! ino = Some fd →
  sys_flock fd LOCK_UN w = Some (None, set_flocks (delete ino (flocks w)) w).
Proof. intros Hof Hfl. unfold sys_flock. by rewrite Hof, decide_True. Qed.

Lemma sys_close_other fd w ino :
  ofiles w !! fd = Some ino → flocks w !! ino ≠ Some fd →
  sys_close fd w =
  mkOS (dirents w) (readonly w) (delete fd (ofiles w)) (flocks w)
       (next_ino w) (next_fd w).
Proof. intros Hof Hfl. unfold sys_close. by rewrite Hof, decide_False. Qed.

Lemma sys_unlink_present name w ino :
  dirents w !! name = Some ino → name ∉ readonly w →
  sys_unlink name w =
  (None,
   mkOS (delete name (dirents w)) (readonly w) (ofiles w) (flocks w)
        (next_ino w) (next_fd w)).
Proof. intros Hd Hro. unfold sys_unlink. by rewrite Hd, decide_False. Qed.

Lemma sys_unlink_gone name w :
  name ∉ readonly w → dirents (sys_unlink name w).2 !! name = None.
Proof.
  intros Hro. unfold sys_unlink.
  destruct (dirents w !! name) eqn:Hd; [| done].
  rewrite decide_False by done. cbn. apply lookup_delete_eq.
Qed.

Lemma sys_flock_dirents fd h w e w' :
  sys_flock fd h w = Some (e, w') → dirents w' = dirents w.
Proof.
  unfold sys_flock. intros Hf.
  destruct (ofiles w !! fd) as [ino |]; [| by simplify_eq].
  destruct h; repeat case_match; by simplify_eq.
Qed.

Lemma sys_close_dirents fd w : dirents (sys_close fd w) = dirents w.
Proof. unfold sys_close. by case_match. Qed.

Lemma wf_boot : wf boot.
Proof. split; cbn; intros ??; by rewrite lookup_empty. Qed.

Lemma wf_sys_open name w : wf w → wf (sys_open name w).2.
Proof.
  intros [Hd Ho Hf]. unfold sys_open.
  destruct (dirents w !! name) as [ino |] eqn:Hn.
  - split; cbn.
    + done.
    + intros fd i. rewrite lookup_insert. case_decide; intros Hi; simplify_eq.
      * apply Hd in Hn. lia.
      * apply Ho in Hi. lia.
    + intros i fd Hi. specialize (Hf _ _ Hi). rewrite lookup_insert_ne; [done |].
      apply Ho in Hf. lia.
  - case_decide; [by split |]. split; cbn.
    + intros n i. rewrite lookup_insert. case_decide; intros Hi; simplify_eq.
      * lia.
      * apply Hd in Hi. lia.
    + intros fd i. rewrite lookup_insert. case_decide; intros Hi; simplify_eq.
      * lia.
      * apply Ho in Hi. lia.
    + intros i fd Hi. specialize (Hf _ _ Hi). rewrite lookup_insert_ne; [done |].
      apply Ho in Hf. lia.
Qed.

Lemma wf_sys_flock fd h w e w' : sys_flock fd h w = Some (e, w') → wf w → wf w'.
Proof.
  unfold sys_flock. intros Hs [Hd Ho Hf].
  destruct (ofiles w !! fd) as [ino |] eqn:Hfd; [| by simplify_eq].
  assert (wf (set_flocks (<[ino := fd]> (flocks w)) w)) as Hins.
  { split; cbn; [done | done |]. intros i d. rewrite lookup_insert.
    destruct (decide (ino = i)); intros; simplify_eq; auto. }
  assert (wf (set_flocks (delete ino (flocks w)) w)) as Hdel.
  { split; cbn; [done | done |]. intros i d. rewrite lookup_delete.
    destruct (decide (ino = i)); intros; simplify_eq; auto. }
  destruct h; repeat case_match; by simplify_eq.
Qed.

Lemma wf_sys_close fd w : wf w → wf (sys_close fd w).
Proof.
  intros [Hd Ho Hf]. unfold sys_close.
  destruct (ofiles w !! fd) as [ino |] eqn:Hfd; [| done].
  split; cbn; [done | |].
  - intros d i. rewrite lookup_delete. case_decide; intros; simplify_eq; auto.
  - intros i d Hi. case_decide as Hown.
    + rewrite lookup_delete in Hi. case_decide; simplify_eq.
      specialize (Hf _ _ Hi). rewrite lookup_delete_ne; [done |].
      intros ->. congruence.
    + specialize (Hf _ _ Hi). rewrite lookup_delete_ne; [done |].
      intros ->. congruence.
Qed.

Lemma wf_sys_unlink name w : wf w → wf (sys_unlink name w).2.
Proof.
  intros [Hd Ho Hf]. unfold sys_unlink.
  destruct (dirents w !! name) as [ino |]; [| done].
  destruct (decide (name ∈ readonly w)); [done |].
  split; cbn; [| done | done].
  intros n' i. rewrite lookup_delete.
  destruct (decide (name = n')); intros; simplify_eq; eauto.
Qed.

(** Every answer of the machine keeps it well formed. *)
Lemma wf_answer s w r w' : answer s w = Some (r, w') → wf w → wf w'.
Proof.
  destruct s as [name | fd h | fd | name]; cbn; intros Hs Hw.
  - injection Hs as Hs. apply (wf_sys_open name) in Hw. by rewrite Hs in Hw.
  - by eapply wf_sys_flock.
  - injection Hs as _ <-. by apply wf_sys_close.
  - injection Hs as Hs. apply (wf_sys_unlink name) in Hw. by rewrite Hs in Hw.
Qed.

Lemma wf_run {A} (p : prog A) w : wf w → wf (world (run answer p w)).
Proof. apply run_invariant, wf_answer. Qed.

Lemma wf_no_lock w ino : wf w → next_ino w ≤ ino → flocks w !! ino = None.
Proof.
  intros [_ Ho Hf] Hle. destruct (flocks w !! ino) as [fd |] eqn:Hl; [| done].
  apply Hf, Ho in Hl. lia.
Qed.

Lemma wf_owner w ino fd : wf w → flocks w !! ino = Some fd → fd ≠ next_fd w.
Proof. intros [_ Ho Hf] Hl. apply Hf, Ho in Hl. lia. Qed.

Ltac lookups :=
  cbn;
  repeat first
    [ rewrite lookup_insert_eq | rewrite lookup_delete_eq
    | rewrite lookup_insert_ne by lia | rewrite lookup_delete_ne by lia ];
  try done; try congruence; try lia;
  try (apply wf_no_lock; [assumption | cbn; lia]); eauto.

(* ================================================================== *)
(** ** The gofrs lock on the machine *)
(* ================================================================== *)

Lemma gofrs_TryLock_creates name w :
  dirents w !! name = None → name ∉ readonly w →
  flocks w !! next_ino w = None →
  run answer (flockExt.gofrs_TryLock (flockExt.mk name None false)) w =
  (Done (true, None, flockExt.mk name (Some (next_fd w)) true),
   mkOS (<[name := next_ino w]> (dirents w)) (readonly w)
        (<[next_fd w := next_ino w]> (ofiles w))
        (<[next_ino w := next_fd w]> (flocks w))
        (S (next_ino w)) (S (next_fd w)),
   [SysOpen name; SysFlock (next_fd w) LOCK_EX_NB]).
Proof.
  intros Hd Hro Hfl. cbn.
  rewrite sys_open_absent by done. cbn.
  erewrite sys_flock_free by lookups. done.
Qed.

Lemma gofrs_TryLock_contended name w ino owner :
  dirents w !! name = Some ino → flocks w !! ino = Some owner →
  owner ≠ next_fd w →
  run answer (flockExt.gofrs_TryLock (flockExt.mk name None false)) w =
  (Done (false, None, flockExt.mk name None false),
   mkOS (dirents w) (readonly w)
        (delete (next_fd w) (<[next_fd w := ino]> (ofiles w)))
        (flocks w) (next_ino w) (S (next_fd w)),
   [SysOpen name; SysFlock (next_fd w) LOCK_EX_NB; SysClose (next_fd w)]).
Proof.
  intros Hd Hfl Hne. cbn.
  erewrite sys_open_present by done. cbn.
  erewrite sys_flock_busy by lookups. cbn.
  erewrite sys_close_other by lookups. done.
Qed.

Lemma gofrs_Unlock_holder name fd w ino :
  ofiles w !! fd = Some ino → flocks w !! ino = Some fd →
  run answer (flockExt.gofrs_Unlock (flockExt.mk name (Some fd) true)) w =
  (Done (None, flockExt.mk name None false),
   mkOS (dirents w) (readonly w) (delete fd (ofiles w))
        (delete ino (flocks w)) (next_ino w) (next_fd w),
   [SysFlock fd LOCK_UN; SysClose fd]).
Proof.
  intros Hof Hfl. cbn.
  erewrite sys_flock_release by done. cbn.
  erewrite sys_close_other by lookups. done.
Qed.

(** The embedded release leaves the directory alone. *)
Lemma gofrs_Unlock_dirents f w :
  dirents (world (run answer (flockExt.gofrs_Unlock f) w)) = dirents w.
Proof.
  unfold flockExt.gofrs_Unlock.
  destruct (flockExt.l f); [| done].
  destruct (flockExt.fh f) as [fd |]; [| done].
  cbn.
  destruct (sys_flock fd LOCK_UN w) as [[e w1] |] eqn:Hf; [| done].
  apply sys_flock_dirents in Hf.
  destruct e; cbn; [done |]. rewrite <- Hf. apply sys_close_dirents.
Qed.

(** A handle in the held state, taken apart. *)
Lemma held_inv w (h : Handle) :
  held w h = true →
  ∃ fd ino, h = flock.mk (flockExt.mk (flock.Path h) (Some fd) true)
            ∧ ofiles w !! fd = Some ino ∧ flocks w !! ino = Some fd.
Proof.
  destruct h as [[name fh l]]. unfold held, owns. cbn.
  destruct l; [| done]. destruct fh as [fd |]; [| done]. cbn.
  destruct (ofiles w !! fd) as [ino |] eqn:Hof; [| done].
  intros Hb%bool_decide_eq_true. by exists fd, ino.
Qed.

(* ================================================================== *)
(** ** The package on any machine and any embedded lock *)
(* ================================================================== *)
Section any_lock.
Context {W : Type} (ans : ∀ s : sys, W → option (resp s * W)).
Context {F : Type} `{!flockExt.Flock F}.
Implicit Types (l : flock.Flock F) (w : W).

(** A release is the removal followed by the embedded release, run on the
    machine the removal left, whatever the removal answered. *)
Lemma run_Unlock l w :
  run ans (flock.Unlock l) w =
  match ans (SysUnlink (flock.Path l)) w with
  | Some (_, w1) =>
      let x := run ans (flockExt.Unlock (flock.ext l)) w1 in
      (result_map (λ '(e, f), (e, flock.mk f)) (value x), world x,
       SysUnlink (flock.Path l) :: trace x)
  | None => (Blocked, w, [])
  end.
Proof.
  unfold flock.Unlock. rewrite run_bind, run_Remove.
  destruct (ans _ w) as [[r w1] |]; [| done]. cbn [run_then].
  rewrite run_bind.
  destruct (run ans (flockExt.Unlock (flock.ext l)) w1) as [[[[e f] |] w2] t];
    cbn; by rewrite ?app_nil_r.
Qed.

Lemma run_TryLock l w :
  run ans (flock.TryLock l) w =
  let x := run ans (flockExt.TryLock (flock.ext l)) w in
  (result_map (λ '(ok, e, f), (ok, e, flock.mk f)) (value x), world x, trace x).
Proof.
  unfold flock.TryLock. rewrite run_bind.
  destruct (run ans _ w) as [[[[[ok e] f] |] w1] t]; cbn; [| done].
  by rewrite app_nil_r.
Qed.

Lemma run_Lock l w :
  run ans (flock.Lock l) w =
  let x := run ans (flockExt.Lock (flock.ext l)) w in
  (result_map (λ '(e, f), (e, flock.mk f)) (value x), world x, trace x).
Proof.
  unfold flock.Lock. rewrite run_bind.
  destruct (run ans _ w) as [[[[e f] |] w1] t]; cbn; [| done].
  by rewrite app_nil_r.
Qed.
End any_lock.

(* ================================================================== *)
(** ** The package on the gofrs lock *)
(* ================================================================== *)

Lemma TryLock_creates name w :
  dirents w !! name = None → name ∉ readonly w →
  flocks w !! next_ino w = None →
  run answer (flock.TryLock (fresh_handle name)) w =
  (Done (true, None, flock.mk (flockExt.mk name (Some (next_fd w)) true)),
   mkOS (<[name := next_ino w]> (dirents w)) (readonly w)
        (<[next_fd w := next_ino w]> (ofiles w))
        (<[next_ino w := next_fd w]> (flocks w))
        (S (next_ino w)) (S (next_fd w)),
   [SysOpen name; SysFlock (next_fd w) LOCK_EX_NB]).
Proof.
  intros. rewrite run_TryLock. cbn [fresh_handle flock.ext].
  by rewrite gofrs_TryLock_creates.
Qed.

Lemma TryLock_contended name w ino owner :
  dirents w !! name = Some ino → flocks w !! ino = Some owner →
  owner ≠ next_fd w →
  run answer (flock.TryLock (fresh_handle name)) w =
  (Done (false, None, fresh_handle name),
   mkOS (dirents w) (readonly w)
        (delete (next_fd w) (<[next_fd w := ino]> (ofiles w)))
        (flocks w) (next_ino w) (S (next_fd w)),
   [SysOpen name; SysFlock (next_fd w) LOCK_EX_NB; SysClose (next_fd w)]).
Proof.
  intros. rewrite run_TryLock. cbn [fresh_handle flock.ext].
  by erewrite gofrs_TryLock_contended.
Qed.

Lemma TryLock_existing name w ino :
  dirents w !! name = Some ino → flocks w !! ino = None →
  run answer (flock.TryLock (fresh_handle name)) w =
  (Done (true, None, flock.mk (flockExt.mk name (Some (next_fd w)) true)),
   mkOS (dirents w) (readonly w) (<[next_fd w := ino]> (ofiles w))
        (<[ino := next_fd w]> (flocks w)) (next_ino w) (S (next_fd w)),
   [SysOpen name; SysFlock (next_fd w) LOCK_EX_NB]).
Proof.
  intros Hd Hfl. rewrite run_TryLock. cbn [fresh_handle flock.ext]. cbn.
  erewrite sys_open_present by done. cbn.
  erewrite sys_flock_free by lookups. done.
Qed.

Lemma TryLock_refused name w :
  dirents w !! name = None → name ∈ readonly w →
  run answer (flock.TryLock (fresh_handle name)) w =
  (Done (false, Some EACCES, fresh_handle name), w, [SysOpen name]).
Proof.
  intros Hd Hro. rewrite run_TryLock. cbn [fresh_handle flock.ext]. cbn.
  unfold sys_open. by rewrite Hd, decide_True.
Qed.

Lemma Unlock_holder name fd w ino :
  dirents w !! name = Some ino → name ∉ readonly w →
  ofiles w !! fd = Some ino → flocks w !! ino = Some fd →
  run answer (flock.Unlock (flock.mk (flockExt.mk name (Some fd) true))) w =
  (Done (None, fresh_handle name),
   mkOS (delete name (dirents w)) (readonly w) (delete fd (ofiles w))
        (delete ino (flocks w)) (next_ino w) (next_fd w),
   [SysUnlink name; SysFlock fd LOCK_UN; SysClose fd]).
Proof.
  intros Hd Hro Hof Hfl. rewrite run_Unlock.
  cbn [answer flock.Path flock.ext flockExt.Path flockExt.gofrs_Flock
       flockExt.path].
  erewrite sys_unlink_present by done.
  cbn [flockExt.Unlock flockExt.gofrs_Flock].
  by erewrite gofrs_Unlock_holder.
Qed.

(** After a release the name is gone unless its directory refuses, whoever
    released and whatever the release returned. *)
Lemma Unlock_removes (h : Handle) w :
  flock.Path h ∉ readonly w →
  dirents (world (run answer (flock.Unlock h) w)) !! flock.Path h = None.
Proof.
  intros Hro. rewrite run_Unlock. cbn [answer].
  destruct (sys_unlink (flock.Path h) w) as [r w1] eqn:Hu. cbn.
  change (dirents (world (run answer (flockExt.gofrs_Unlock (flock.ext h)) w1))
          !! flock.Path h = None).
  rewrite gofrs_Unlock_dirents.
  change w1 with ((r, w1).2). rewrite <- Hu. by apply sys_unlink_gone.
Qed.

(* ================================================================== *)
(** ** The embedded lock alone *)
(* ================================================================== *)

Lemma proto_method name σ h o :
  o ≠ OpUnlock → at_rest name σ h → proto name σ (method o h).
Proof.
  intros Ho Hh. destruct σ as [| fd | fd]; cbn in Hh; [| done |]; subst h.
  - destruct o; [| | done |]; cbn; repeat split; try done.
    intros []; cbn; by repeat split.
  - destruct o; [| | done |]; cbn; by repeat split.
Qed.

(** A list in which any two elements with [P] sit at the same index has at
    most one element with [P]. *)
Lemma filter_at_most_one {A} (P : A → Prop) `{!∀ x, Decision (P x)}
    (l : list A) :
  (∀ i j x y, l !! i = Some x → l !! j = Some y → P x → P y → i = j) →
  length (filter P l) ≤ 1.
Proof.
  induction l as [| x l IH]; intros Huniq; [cbn; lia |].
  rewrite filter_cons. destruct (decide (P x)) as [Hx | Hx].
  - destruct (filter P l) as [| y l'] eqn:Hfl; [cbn; lia |].
    assert (y ∈ filter P l) as [Hpy Hy]%list_elem_of_filter
      by (rewrite Hfl; left).
    apply list_elem_of_lookup in Hy as [j Hj].
    by specialize (Huniq 0 (S j) x y eq_refl Hj Hx Hpy).
  - apply IH. intros i j y z Hi Hj Hy Hz.
    by specialize (Huniq (S i) (S j) y z Hi Hj Hy Hz) as [= ->].
Qed.

(** A description that is closed stays closed: numbers are not reused. *)
Lemma closed_stays s w r w' fd :
  answer s w = Some (r, w') →
  ofiles w !! fd = None → fd < next_fd w →
  ofiles w' !! fd = None ∧ fd < next_fd w'.
Proof.
  intros Hs Hfd Hlt. destruct s as [n | fd' h | fd' | n]; cbn in Hs.
  - injection Hs as Hs. unfold sys_open in Hs.
    destruct (dirents w !! n); [| destruct (decide (n ∈ readonly w))];
      simplify_eq; cbn; rewrite ?lookup_insert_ne by lia; auto with lia.
  - unfold sys_flock in Hs. destruct (ofiles w !! fd'); [| by simplify_eq].
    destruct h; repeat case_match; by simplify_eq.
  - injection Hs as _ <-. unfold sys_close.
    destruct (ofiles w !! fd') eqn:Hfd'; [| done]. cbn. split; [| done].
    rewrite lookup_delete. by destruct (decide (fd' = fd)).
  - injection Hs as Hs. unfold sys_unlink in Hs.
    destruct (dirents w !! n); [| by simplify_eq].
    destruct (decide (n ∈ readonly w)); by simplify_eq.
Qed.

Lemma facts_fd_lt name w σ fd :
  wf w → facts name w σ → fd_of σ = Some fd → fd < next_fd w.
Proof.
  intros Hw Hf Hfd.
  destruct σ as [| fd' | fd']; cbn in Hfd; simplify_eq;
    destruct Hf as (ino & _ & Ho & _); apply (wf_ofiles w Hw) in Ho; lia.
Qed.

(** What a system call on a caller's own description leaves of another
    caller's standing. *)
Lemma frame_open name n w σ :
  wf w → facts name w σ → facts name (sys_open n w).2 σ.
Proof.
  intros Hw Hf. destruct σ as [| fdj | fdj]; [done | |];
    destruct Hf as (ino & Hd & Ho & Hl);
    pose proof (wf_ofiles w Hw _ _ Ho) as [Hlt _];
    unfold sys_open;
    (destruct (dirents w !! n) as [i |] eqn:Hn;
       [| destruct (decide (n ∈ readonly w))]); cbn;
    try (by exists ino);
    exists ino; rewrite !lookup_insert_ne by (lia || congruence); done.
Qed.

Lemma frame_flock name fd h w e w' σ :
  sys_flock fd h w = Some (e, w') → fd_of σ ≠ Some fd →
  facts name w σ → facts name w' σ.
Proof.
  unfold sys_flock. intros Hs Hne Hf.
  destruct (ofiles w !! fd) as [ino' |] eqn:Hfd; [| by simplify_eq].
  assert (facts name (set_flocks (<[ino' := fd]> (flocks w)) w) σ
          ∨ flocks w !! ino' ≠ None) as Hins.
  { destruct (flocks w !! ino') eqn:Hl'; [by right | left].
    destruct σ as [| fdj | fdj]; [done | |];
      destruct Hf as (ino & Hd & Ho & Hl); exists ino; cbn;
      (split; [done |]); (split; [done |]); rewrite lookup_insert;
      destruct (decide (ino' = ino)); cbn in Hne; congruence. }
  assert (flocks w !! ino' = Some fd →
          facts name (set_flocks (delete ino' (flocks w)) w) σ) as Hdel.
  { intros Hl'. destruct σ as [| fdj | fdj]; [done | |];
      destruct Hf as (ino & Hd & Ho & Hl); exists ino; cbn;
      (split; [done |]); (split; [done |]); rewrite lookup_delete;
      destruct (decide (ino' = ino)); cbn in Hne; congruence. }
  destruct h.
  - destruct (flocks w !! ino') as [owner |] eqn:Hl'.
    + destruct (decide (owner = fd)); [by simplify_eq |].
      by destruct (decide (LOCK_EX = LOCK_EX_NB)).
    + destruct Hins as [? | ?]; by simplify_eq.
  - destruct (flocks w !! ino') as [owner |] eqn:Hl'.
    + destruct (decide (owner = fd)); [by simplify_eq |].
      destruct (decide (LOCK_EX_NB = LOCK_EX_NB)); by simplify_eq.
    + destruct Hins as [? | ?]; by simplify_eq.
  - destruct (decide (flocks w !! ino' = Some fd)); simplify_eq; auto.
Qed.

Lemma frame_close name fd w σ :
  fd_of σ ≠ Some fd → facts name w σ → facts name (sys_close fd w) σ.
Proof.
  intros Hne Hf. unfold sys_close.
  destruct (ofiles w !! fd) as [ino' |] eqn:Hfd; [| done].
  destruct σ as [| fdj | fdj]; [done | |];
    destruct Hf as (ino & Hd & Ho & Hl); exists ino; cbn; cbn in Hne;
    (split; [done |]);
    (split; [rewrite lookup_delete_ne by congruence; done |]);
    (destruct (decide (flocks w !! ino' = Some fd)); [| done]);
    rewrite lookup_delete; destruct (decide (ino' = ino)); congruence.
Qed.

Lemma facts_frame name s w r w' σ :
  wf w → answer s w = Some (r, w') →
  (∀ n, s ≠ SysUnlink n) →
  (∀ fd, touches s = Some fd → fd_of σ ≠ Some fd) →
  facts name w σ → facts name w' σ.
Proof.
  intros Hw Hs Hnu Hfd Hf.
  destruct s as [n | fd h | fd | n]; cbn in Hs.
  - injection Hs as Hs. apply (frame_open name n) in Hf; [| done].
    by rewrite Hs in Hf.
  - eapply frame_flock; eauto.
  - injection Hs as _ <-. apply frame_close; auto.
  - by destruct (Hnu n).
Qed.

Lemma hcond_frame name s w r w' σ h :
  answer s w = Some (r, w') → hcond name w σ h → hcond name w' σ h.
Proof.
  intros Hs [-> | (fd & -> & [-> | [-> | [Hc Hlt]]])]; [by left | right ..];
    exists fd; (split; [done |]); auto.
  right; right. by eapply closed_stays.
Qed.

(** What a caller's own system call makes of its standing. *)
Lemma own_open name w :
  wf w →
  (sys_open name w).1 = inl (next_fd w)
  ∧ facts name (sys_open name w).2 (Open (next_fd w))
  ∨ (∃ e, (sys_open name w).1 = inr e) ∧ (sys_open name w).2 = w.
Proof.
  intros Hw. unfold sys_open.
  destruct (dirents w !! name) as [ino |] eqn:Hd;
    [| destruct (decide (name ∈ readonly w))]; cbn.
  - left. split; [done |]. exists ino. rewrite lookup_insert_eq.
    split; [done |]. split; [done |].
    intros Hl%(wf_flocks w Hw)%(wf_ofiles w Hw). lia.
  - right. eauto.
  - left. split; [done |]. exists (next_ino w). rewrite !lookup_insert_eq.
    split; [done |]. split; [done |].
    by rewrite (wf_no_lock w (next_ino w)).
Qed.

Lemma own_acquire name fd h w e w' :
  h ≠ LOCK_UN → facts name w (Open fd) →
  sys_flock fd h w = Some (e, w') →
  e = None ∧ facts name w' (Locked fd) ∨ (∃ err, e = Some err) ∧ w' = w.
Proof.
  intros Hh (ino & Hd & Ho & Hl). unfold sys_flock. rewrite Ho.
  assert (match flocks w !! ino with
          | Some owner =>
              if decide (owner = fd) then Some (None, w)
              else if decide (h = LOCK_EX_NB) then Some (Some EWOULDBLOCK, w)
                   else None
          | None => Some (None, set_flocks (<[ino := fd]> (flocks w)) w)
          end = Some (e, w') →
          e = None ∧ facts name w' (Locked fd)
          ∨ (∃ err, e = Some err) ∧ w' = w) as Hcase.
  { destruct (flocks w !! ino) as [owner |] eqn:Hown.
    - destruct (decide (owner = fd)); [congruence |].
      destruct (decide (h = LOCK_EX_NB)); [| done].
      intros [= <- <-]. right. eauto.
    - intros [= <- <-]. left. split; [done |]. exists ino. cbn.
      by rewrite lookup_insert_eq. }
  by destruct h.
Qed.

Lemma own_release name fd w e w' :
  facts name w (Locked fd) →
  sys_flock fd LOCK_UN w = Some (e, w') →
  e = None ∧ facts name w' (Open fd).
Proof.
  intros (ino & Hd & Ho & Hl). unfold sys_flock. rewrite Ho.
  rewrite decide_True by done. intros [= <- <-]. split; [done |].
  exists ino. cbn. rewrite lookup_delete_eq. done.
Qed.

Lemma own_close name fd w :
  wf w → facts name w (Open fd) →
  ofiles (sys_close fd w) !! fd = None ∧ fd < next_fd (sys_close fd w).
Proof.
  intros Hw (ino & Hd & Ho & Hl). unfold sys_close. rewrite Ho. cbn.
  rewrite lookup_delete_eq. split; [done |].
  apply (wf_ofiles w Hw) in Ho. lia.
Qed.

Lemma own_step name σ s (rec : tstate → resp s → Prop) w r w' h :
  wf w → facts name w σ → hcond name w σ h →
  call_ok name σ s rec → answer s w = Some (r, w') →
  ∃ σ', rec σ' r ∧ facts name w' σ' ∧ hcond name w' σ' h
        ∧ (fd_of σ' = fd_of σ ∨ fd_of σ' = None
           ∨ fd_of σ' = Some (next_fd w))
        ∧ (∀ n, s ≠ SysUnlink n)
        ∧ (∀ fd, touches s = Some fd → fd_of σ = Some fd).
Proof.
  intros Hw Hf Hh Hok Hs.
  assert (∀ fd0 σ', ofiles w !! fd0 = None ∧ fd0 < next_fd w →
                    hcond name w' σ' (handle_on name fd0)) as Hstale.
  { intros fd0 σ' [Hc Hlt]. right. exists fd0. split; [done |].
    right; right. by eapply closed_stays. }
  destruct s as [n | fd how | fd | n]; cbn in Hok, Hs; [| | | done].
  - destruct Hok as (-> & -> & Hfd & Herr). injection Hs as Hs.
    destruct (own_open name w Hw) as [[Hr Hfo] | [[e Hr] Hw']];
      rewrite Hs in *; cbn in *; subst r.
    + exists (Open (next_fd w)). split; [done |]. split; [done |].
      split; [| cbn; auto].
      destruct Hh as [-> | (fd & -> & [[=] | [[=] | Hst]])]; [by left |].
      by apply Hstale.
    + exists Closed. subst w'. repeat split; cbn; auto.
  - assert (how ≠ LOCK_UN → σ = Open fd → rec (Locked fd) None →
            (∀ e, rec (Open fd) (Some e)) →
            ∃ σ', rec σ' r ∧ facts name w' σ' ∧ hcond name w' σ' h
                  ∧ (fd_of σ' = fd_of σ ∨ fd_of σ' = None
                     ∨ fd_of σ' = Some (next_fd w))) as Hacq.
    { intros Hhow -> Hnone Hsome.
      destruct (own_acquire name fd how w r w' Hhow Hf Hs)
        as [[-> Hfl] | [[err ->] ->]].
      - exists (Locked fd). split; [done |]. split; [done |].
        split; [| cbn; auto].
        destruct Hh as [-> | (fd0 & -> & [[= <-] | [[=] | Hst]])];
          [by left | right; exists fd; auto | by apply Hstale].
      - exists (Open fd). repeat split; cbn; auto. }
    destruct how.
    + destruct Hok as (Hσ & Hnone & Hsome).
      destruct Hacq as (σ' & ?); [done .. |]. exists σ'. subst σ.
      repeat split; try tauto; try done; by intros ? [= <-].
    + destruct Hok as (Hσ & Hnone & Hsome).
      destruct Hacq as (σ' & ?); [done .. |]. exists σ'. subst σ.
      repeat split; try tauto; try done; by intros ? [= <-].
    + destruct Hok as (-> & Hnone & Hsome).
      destruct (own_release name fd w r w' Hf Hs) as [-> Hfo].
      exists (Open fd). split; [done |]. split; [done |].
      split; [| split; [cbn; auto |]; split; [done | by intros ? [= <-]]].
      destruct Hh as [-> | (fd0 & -> & [[=] | [[= <-] | Hst]])];
        [by left | right; exists fd; auto | by apply Hstale].
  - destruct Hok as (-> & Hrec). injection Hs as _ <-. destruct r.
    exists Closed. split; [done |]. split; [done |].
    split; [| split; [cbn; auto |]; split; [done | by intros ? [= <-]]].
    destruct Hh as [-> | (fd0 & -> & [[= <-] | [[=] | Hst]])];
      [by left | | by apply Hstale].
    right. exists fd. split; [done |]. right; right.
    by apply (own_close name).
Qed.

Lemma settle_ok name w th p σ :
  Forall (λ o, o ≠ OpUnlock) (todo th) → hcond name w σ (handle th) →
  proto name σ p → facts name w σ →
  thread_ok name w (settle th p) σ.
Proof.
  intros Htodo Hh Hp Hf. destruct p as [[r h] | s k]; cbn; [| done].
  cbn in Hp. repeat split; try done.
  destruct σ as [| fd | fd]; cbn in Hp; [by left | done |].
  right. exists fd. auto.
Qed.

Lemma fetch_ok name w th σ th' p :
  thread_ok name w th σ → fetch th = Some (th', p) →
  handle th' = handle th ∧ Forall (λ o, o ≠ OpUnlock) (todo th')
  ∧ proto name σ p.
Proof.
  intros (Htodo & Hh & Hpc & Hf). unfold fetch.
  destruct (pc th) as [q |]; [by intros [= <- <-] |].
  destruct (todo th) as [| o rest]; [done |]. intros [= <- <-]. cbn.
  apply Forall_cons in Htodo as [Ho Hrest]. split; [done |]. split; [done |].
  by apply proto_method.
Qed.

Lemma held_locked name w th σ :
  thread_ok name w th σ → held w (handle th) = true →
  ∃ fd ino, σ = Locked fd ∧ dirents w !! name = Some ino
            ∧ flocks w !! ino = Some fd.
Proof.
  intros (_ & Hh & _ & Hf) Hheld.
  destruct Hh as [Hh | (fd & Hh & Hσ)]; rewrite Hh in Hheld; [done |].
  unfold held, owns in Hheld. cbn in Hheld.
  destruct Hσ as [-> | [-> | [Hc _]]].
  - destruct Hf as (ino & Hd & Ho & Hl). rewrite Ho in Hheld.
    by apply bool_decide_eq_true in Hheld.
  - destruct Hf as (ino & Hd & Ho & Hl). by exists fd, ino.
  - by rewrite Hc in Hheld.
Qed.

(** Every step of a caller keeps the invariant. *)
Lemma step_inv name i c c' : inv name c → step i c = Some c' → inv name c'.
Proof.
  destruct c as [[ts w] t]. intros (Hw & σ & Hth & Hdis) Hstep.
  cbn in Hstep. destruct (ts !! i) as [th |] eqn:Hi; [| done].
  cbn in Hstep. pose proof (lookup_lt_Some _ _ _ Hi) as Hlt.
  pose proof (Hth i th Hi) as Hok.
  destruct (fetch th) as [[th' p] |] eqn:Hfetch; [| done]. cbn in Hstep.
  destruct (fetch_ok name w th (σ i) th' p Hok Hfetch) as (Hh' & Htodo & Hp).
  destruct Hok as (_ & Hh & _ & Hf). rewrite <- Hh' in Hh.
  destruct p as [[r h] | s k].
  - injection Hstep as <-. split; [done |]. exists σ. split.
    + intros j thj Hj. destruct (decide (i = j)) as [<- | Hne].
      * rewrite list_lookup_insert_eq in Hj by done. injection Hj as <-.
        by apply (settle_ok name w th' (Ret (r, h))).
      * rewrite list_lookup_insert_ne in Hj by done. auto.
    + rewrite length_insert. done.
  - destruct (answer s w) as [[r w'] |] eqn:Hs; [| done]. cbn in Hstep.
    injection Hstep as <-.
    destruct (own_step name (σ i) s (λ σ' r, proto name σ' (k r)) w r w'
                (handle th') Hw Hf Hh Hp Hs)
      as (σ' & Hp' & Hf' & Hh'' & Hfd & Hnu & Htouch).
    split; [by eapply wf_answer |]. exists (<[i := σ']> σ). split.
    + intros j thj Hj. destruct (decide (i = j)) as [<- | Hne].
      * rewrite list_lookup_insert_eq in Hj by done. injection Hj as <-.
        rewrite fn_lookup_insert. by apply (settle_ok name w' th' (k r)).
      * rewrite list_lookup_insert_ne in Hj by done.
        rewrite fn_lookup_insert_ne by done.
        destruct (Hth j thj Hj) as (Htj & Hhj & Hpj & Hfj).
        split; [done |]. split; [by eapply hcond_frame |]. split; [done |].
        eapply facts_frame; eauto. intros fd Hfd' Hj'.
        apply Hne. apply (Hdis i j fd); auto.
        by apply lookup_lt_Some in Hj.
    + rewrite length_insert.
      assert (∀ j fd, j < length ts → j ≠ i →
                      fd_of σ' = Some fd → fd_of (σ j) = Some fd → False)
        as Hnew.
      { intros j fd Hj Hne Hi' Hj'.
        destruct Hfd as [Hsame | [Hnone | Hfresh]].
        - apply Hne. symmetry. apply (Hdis i j fd); congruence.
        - congruence.
        - apply lookup_lt_is_Some in Hj as [thj Hthj].
          destruct (Hth j thj Hthj) as (_ & _ & _ & Hfj).
          pose proof (facts_fd_lt name w (σ j) fd Hw Hfj Hj').
          assert (fd = next_fd w) by congruence. lia. }
      intros a b fd Ha Hb.
      destruct (decide (a = i)) as [-> | Hai];
        destruct (decide (b = i)) as [-> | Hbi]; [done | | |].
      * rewrite fn_lookup_insert, fn_lookup_insert_ne by done.
        intros ??. by destruct (Hnew b fd).
      * rewrite fn_lookup_insert, fn_lookup_insert_ne by done.
        intros ??. by destruct (Hnew a fd).
      * rewrite !fn_lookup_insert_ne by done. by apply Hdis.
Qed.

Lemma exec_inv name schedule c c' :
  inv name c → exec schedule c = Some c' → inv name c'.
Proof.
  revert c. induction schedule as [| i rest IH]; intros c Hc; cbn.
  - by intros [= <-].
  - destruct (step i c) as [c1 |] eqn:Hstep; [| done]. cbn.
    apply IH. by eapply step_inv.
Qed.

Lemma inv_start name scripts w :
  wf w → embedded_only scripts → inv name (start (spawn name <$> scripts) w).
Proof.
  intros Hw Hs. split; [done |]. exists (λ _, Closed). split; [| done].
  intros i th. rewrite list_lookup_fmap.
  destruct (scripts !! i) as [script |] eqn:Hi; [| done]. intros [= <-].
  repeat split; cbn; try done; [| by left].
  by apply (Forall_lookup_1 _ _ _ _ Hs Hi).
Qed.

Lemma inv_holders name c : inv name c → holders name c ≤ 1.
Proof.
  destruct c as [[ts w] t]. intros (Hw & σ & Hth & Hdis). cbn.
  apply filter_at_most_one. intros i j thi thj Hi Hj Hpi Hpj.
  apply andb_prop in Hpi as [_ Hpi], Hpj as [_ Hpj].
  destruct (held_locked name w thi (σ i) (Hth i thi Hi) Hpi)
    as (fdi & inoi & Hσi & Hdi & Hli).
  destruct (held_locked name w thj (σ j) (Hth j thj Hj) Hpj)
    as (fdj & inoj & Hσj & Hdj & Hlj).
  apply (Hdis i j fdi); eauto using lookup_lt_Some.
  - by rewrite Hσi.
  - rewrite Hσj. cbn. congruence.
Qed.

(** Without the removal the lock is exclusive: callers that take the lock
    with [TryLock] or [Lock] and give it back with the embedded [Unlock]
    only, under any schedule and from any well-formed machine, never leave
    two handles in the held state. *)
Lemma embedded_lock_is_exclusive name scripts schedule w c :
  wf w → embedded_only scripts →
  exec schedule (start (spawn name <$> scripts) w) = Some c →
  holders name c ≤ 1.
Proof.
  intros Hw Hs Hexec. eapply inv_holders, exec_inv; [| done].
  by apply inv_start.
Qed.

(* ================================================================== *)
(** ** Mutual exclusion *)
(* ================================================================== *)

(** C1 (the code breaks it): across handles bound to one path at most one is
    in the held state at any instant, and while one handle holds the lock a
    [TryLock] of another returns not-acquired.  Here three callers each make
    a handle on the test path.  Caller 0 takes the lock; caller 1 opens the
    lock file; caller 0 releases, which removes the name and then unlocks the
    file; caller 1 locks the file it had opened, which no longer has a name;
    caller 2 finds no file, creates one and locks it.  Both [TryLock] calls
    of callers 1 and 2 returned [(true, nil)], nobody is inside a call, and
    two handles are in the held state. *)
Theorem race_ends_with_two_holders :
  let final := exec race_schedule (start racers boot) in
  results <$> final =
    Some [[RTry true None; RErr None]; [RTry true None]; [RTry true None]]
  ∧ snd <$> final =
    Some [(0, SysOpen testLockPath); (0, SysFlock 0 LOCK_EX_NB);
          (1, SysOpen testLockPath);
          (0, SysUnlink testLockPath); (0, SysFlock 0 LOCK_UN);
          (0, SysClose 0);
          (1, SysFlock 1 LOCK_EX_NB);
          (2, SysOpen testLockPath); (2, SysFlock 2 LOCK_EX_NB)]
  ∧ idle <$> final = Some true
  ∧ holders testLockPath <$> final = Some 2.
Proof. cbv zeta. repeat split; vm_compute; reflexivity. Qed.

(** With the embedded release in place of the package's, the same race ends
    with one holder: caller 2 opens the file caller 1 has locked and is
    refused. *)
Lemma race_with_embedded_Unlock_has_one_holder :
  let final := exec race_schedule_embedded (start racers_embedded boot) in
  results <$> final =
    Some [[RTry true None; RErr None]; [RTry true None]; [RTry false None]]
  ∧ idle <$> final = Some true
  ∧ holders testLockPath <$> final = Some 1.
Proof. cbv zeta. repeat split; vm_compute; reflexivity. Qed.

(** [TestLock]: while caller 0 holds the lock the blocking request of
    caller 1 does not return; after the release it does, and both callers
    see no error. *)
Lemma TestLock_blocks_until_release :
  (exec [0; 0; 1; 1] (start lockers boot) = None)
  ∧ results <$> exec [0; 0; 1; 0; 0; 0; 1; 1; 1; 1] (start lockers boot)
    = Some [[RErr None; RErr None]; [RErr None; RErr None]].
Proof. split; vm_compute; reflexivity. Qed.

(** Mutual exclusion over all scripts and schedules does not hold. *)
Lemma exclusion_fails : ¬ exclusive testLockPath.
Proof.
  intros Hex.
  pose proof (Hex [[OpTryLock; OpUnlock]; [OpTryLock]; [OpTryLock]]
                  race_schedule) as Hc.
  assert (holders testLockPath <$>
            exec race_schedule
              (start (spawn testLockPath <$>
                        [[OpTryLock; OpUnlock]; [OpTryLock]; [OpTryLock]]) boot)
          = Some 2) as H2 by (vm_compute; reflexivity).
  destruct (exec race_schedule _) as [c |]; [| done].
  specialize (Hc c eq_refl). cbn in H2. injection H2 as H2. lia.
Qed.

(* ================================================================== *)
(** ** Releasing without holding *)
(* ================================================================== *)

(** C5 (the code breaks it): releasing a handle that never held the lock
    does not disturb a handle that holds the lock on the same path, and is a
    no-op or an error.  Here handle 1 holds the lock; releasing handle 2,
    which never held it, returns [nil] but removes the lock file; the next
    [TryLock] of handle 2 then creates a new file and succeeds, so that both
    handles are in the held state. *)
Theorem stray_release_lets_a_second_holder_in :
  let x := run answer (stray_release testLockPath) boot in
  let lock1 := flock.mk (flockExt.mk testLockPath (Some 0) true) in
  let lock2 := flock.mk (flockExt.mk testLockPath (Some 1) true) in
  value x = Done ([RTry true None; RErr None; RTry true None], lock1, lock2)
  ∧ trace x =
    [SysOpen testLockPath; SysFlock 0 LOCK_EX_NB;
     SysUnlink testLockPath;
     SysOpen testLockPath; SysFlock 1 LOCK_EX_NB]
  ∧ held (world x) lock1 = true
  ∧ held (world x) lock2 = true.
Proof. cbv zeta. repeat split; vm_compute; reflexivity. Qed.

(** The same with a second release of a handle that did hold the lock: it
    removes the file of the handle that took the lock in between. *)
Lemma double_release_lets_a_second_holder_in :
  let x := run answer (double_release testLockPath) boot in
  let lock2 := flock.mk (flockExt.mk testLockPath (Some 1) true) in
  let lock3 := flock.mk (flockExt.mk testLockPath (Some 2) true) in
  value x =
    Done ([RTry true None; RErr None; RTry true None; RErr None;
           RTry true None], lock2, lock3)
  ∧ held (world x) lock2 = true
  ∧ held (world x) lock3 = true.
Proof. cbv zeta. repeat split; vm_compute; reflexivity. Qed.

(* ================================================================== *)
(** ** The order of a release *)
(* ================================================================== *)

Lemma sys_unlink_keeps name w :
  ofiles (sys_unlink name w).2 = ofiles w
  ∧ flocks (sys_unlink name w).2 = flocks w.
Proof.
  unfold sys_unlink. destruct (dirents w !! name); [| done].
  by destruct (decide (name ∈ readonly w)).
Qed.

Lemma holder_held : held holding holder = true.
Proof. vm_compute. reflexivity. Qed.

(** C2 as stated fails: a release of a holder is not "release the lock, then
    delete the artifact".  On the machine after one successful [TryLock] the
    package asks [unlink] first and [flock(LOCK_UN)] after it. *)
Lemma Unlock_is_not_Unlock_then_Remove :
  ¬ (∀ w (h : Handle), held w h = true →
       run answer (flock.Unlock h) w = run answer (flock.Unlock_then_Remove h) w).
Proof.
  intros Hspec. specialize (Hspec holding holder holder_held).
  apply (f_equal trace) in Hspec. vm_compute in Hspec. discriminate.
Qed.

(** C2 (amended): for every handle that holds the lock, Release first
    deletes the backing artifact at the bound path and then releases the
    OS-level lock, in that order: its system calls are the removal of the
    name, the unlock request on the handle's description, and the close of
    that description. *)
Theorem Unlock_removes_then_unlocks w (h : Handle) :
  held w h = true →
  ∃ fd, flockExt.fh (flock.ext h) = Some fd
        ∧ trace (run answer (flock.Unlock h) w) =
          [SysUnlink (flock.Path h); SysFlock fd LOCK_UN; SysClose fd].
Proof.
  intros (fd & ino & -> & Hof & Hfl)%held_inv. exists fd. split; [done |].
  rewrite run_Unlock. cbn [answer].
  destruct (sys_unlink_keeps (flock.Path
    (flock.mk (flockExt.mk (flock.Path h) (Some fd) true))) w) as [Ho Hf].
  destruct (sys_unlink _ w) as [r w1]. cbn in Ho, Hf.
  cbn [flock.ext flockExt.Unlock flockExt.gofrs_Flock].
  erewrite gofrs_Unlock_holder by (rewrite ?Ho, ?Hf; eassumption). done.
Qed.

Lemma Unlock_removes_then_unlocks_witness :
  held holding holder = true
  ∧ ∃ fd, flockExt.fh (flock.ext holder) = Some fd
          ∧ trace (run answer (flock.Unlock holder) holding) =
            [SysUnlink (flock.Path holder); SysFlock fd LOCK_UN; SysClose fd].
Proof.
  split; [vm_compute; reflexivity |].
  apply (Unlock_removes_then_unlocks holding holder).
  vm_compute; reflexivity.
Defined.

(* ================================================================== *)
(** ** The artifact after a release *)
(* ================================================================== *)

(** C3 as stated fails: a release that reports success can leave the
    artifact behind.  The lock file lies in a directory that refuses
    removal; the holder's release drops the refusal of [os.Remove], the
    unlock succeeds, Release returns [nil], and the file is still there. *)
Lemma successful_release_can_leave_the_artifact :
  ¬ (∀ w (h h' : Handle),
       held w h = true →
       value (run answer (flock.Unlock h) w) = Done (None, h') →
       dirents (world (run answer (flock.Unlock h) w)) !! flock.Path h = None).
Proof.
  intros Hspec.
  specialize (Hspec sealed_holding holder (fresh_handle testLockPath)).
  assert (held sealed_holding holder = true) as Hh
    by (vm_compute; reflexivity).
  assert (value (run answer (flock.Unlock holder) sealed_holding)
          = Done (None, fresh_handle testLockPath)) as Hv
    by (vm_compute; reflexivity).
  specialize (Hspec Hh Hv). vm_compute in Hspec. discriminate.
Qed.

(** C3 (amended): for every holder, after a Release whose result reports
    success the backing artifact at the bound path does not exist, provided
    the directory of the path does not refuse the removal. *)
Theorem successful_release_removes_the_artifact w (h h' : Handle) :
  held w h = true →
  flock.Path h ∉ readonly w →
  value (run answer (flock.Unlock h) w) = Done (None, h') →
  dirents (world (run answer (flock.Unlock h) w)) !! flock.Path h = None.
Proof. intros _ Hro _. by apply Unlock_removes. Qed.

Lemma successful_release_removes_the_artifact_witness :
  held holding holder = true
  ∧ (flock.Path holder ∉ readonly holding)
  ∧ value (run answer (flock.Unlock holder) holding)
    = Done (None, fresh_handle testLockPath)
  ∧ dirents (world (run answer (flock.Unlock holder) holding))
    !! flock.Path holder = None.
Proof.
  assert (flock.Path holder ∉ readonly holding) as Hro
    by (vm_compute; discriminate).
  split; [vm_compute; reflexivity |]. split; [exact Hro |].
  split; [vm_compute; reflexivity |].
  apply (successful_release_removes_the_artifact holding holder
           (fresh_handle testLockPath)).
  - vm_compute; reflexivity.
  - exact Hro.
  - vm_compute; reflexivity.
Defined.

(* ================================================================== *)
(** ** What a release returns and what it always does *)
(* ================================================================== *)

(** C4: the error Release returns is exactly the error of the embedded
    unlock, run on the machine the removal left; what the removal itself
    answered is dropped, so that it neither becomes the returned error nor
    replaces the unlock's.  This holds on every machine and for every
    embedded lock. *)
Theorem Unlock_returns_the_embedded_error
    {W} (ans : ∀ s : sys, W → option (resp s * W))
    {F} `{!flockExt.Flock F} (l : flock.Flock F) (w : W) :
  result_map fst (value (run ans (flock.Unlock l) w)) =
  match ans (SysUnlink (flock.Path l)) w with
  | Some (_, w1) =>
      result_map fst (value (run ans (flockExt.Unlock (flock.ext l)) w1))
  | None => Blocked
  end.
Proof.
  rewrite run_Unlock. destruct (ans _ w) as [[r w1] |]; [| done].
  destruct (run ans (flockExt.Unlock (flock.ext l)) w1) as [[[[e f] |] w2] t];
    done.
Qed.

(** A failed unlock is reported although the removal failed first (the file
    was missing). *)
Lemma failed_unlock_is_reported :
  sys_unlink testLockPath boot = (Some ENOENT, boot)
  ∧ value (run answer
             (flock.Unlock (embedded := flockExt.stuck_Flock)
                (flock.mk testLockPath)) boot)
    = Done (Some EIO, flock.mk testLockPath).
Proof. split; vm_compute; reflexivity. Qed.

(** A failed removal is not reported: the file is missing, or its directory
    refuses. *)
Lemma failed_removal_is_not_reported :
  sys_unlink testLockPath boot = (Some ENOENT, boot)
  ∧ value (run answer (flock.Unlock (fresh_handle testLockPath)) boot)
    = Done (None, fresh_handle testLockPath)
  ∧ (sys_unlink testLockPath sealed_holding).1 = Some EACCES
  ∧ value (run answer (flock.Unlock holder) sealed_holding)
    = Done (None, fresh_handle testLockPath).
Proof. repeat split; vm_compute; reflexivity. Qed.

(** C7: every Release attempts the deletion of the backing artifact, whether
    the unlock step then succeeds, fails or does not return: for every
    embedded lock the first system call of Release is the removal of the
    bound path, and the calls of the unlock step follow it. *)
Theorem Unlock_always_attempts_the_removal
    {F} `{!flockExt.Flock F} (l : flock.Flock F) (w : OS) :
  trace (run answer (flock.Unlock l) w) =
  SysUnlink (flock.Path l)
    :: trace (run answer (flockExt.Unlock (flock.ext l))
                (sys_unlink (flock.Path l) w).2).
Proof.
  rewrite run_Unlock. cbn [answer].
  by destruct (sys_unlink (flock.Path l) w) as [r w1].
Qed.

(** The removal is attempted when the unlock fails. *)
Lemma removal_attempted_when_unlock_fails :
  run answer
    (flock.Unlock (embedded := flockExt.stuck_Flock) (flock.mk testLockPath))
    holding
  = (Done (Some EIO, flock.mk testLockPath),
     (sys_unlink testLockPath holding).2, [SysUnlink testLockPath])
  ∧ dirents (sys_unlink testLockPath holding).2 !! testLockPath = None.
Proof. split; vm_compute; reflexivity. Qed.

(* ================================================================== *)
(** ** Try-acquire under contention, and the test scenario *)
(* ================================================================== *)

(** C8: when [TryLock] does not acquire because another holder owns the
    lock, it returns [false] together with a [nil] error: contention is not
    reported as an error.  The handle keeps no descriptor. *)
Theorem TryLock_contention_is_not_an_error name w ino owner :
  wf w →
  dirents w !! name = Some ino →
  flocks w !! ino = Some owner →
  value (run answer (flock.TryLock (fresh_handle name)) w)
  = Done (false, None, fresh_handle name).
Proof.
  intros Hw Hd Hfl.
  by erewrite TryLock_contended by eauto using wf_owner.
Qed.

Lemma wf_holding : wf holding.
Proof. apply wf_run, wf_boot. Qed.

Lemma TryLock_contention_is_not_an_error_witness :
  wf holding
  ∧ dirents holding !! testLockPath = Some 0
  ∧ flocks holding !! 0 = Some 0
  ∧ value (run answer (flock.TryLock (fresh_handle testLockPath)) holding)
    = Done (false, None, fresh_handle testLockPath).
Proof.
  split; [exact wf_holding |].
  split; [vm_compute; reflexivity |]. split; [vm_compute; reflexivity |].
  apply (TryLock_contention_is_not_an_error testLockPath holding 0 0).
  - exact wf_holding.
  - vm_compute; reflexivity.
  - vm_compute; reflexivity.
Defined.

(** The only error the machine gives a fresh_handle handle's [TryLock] comes from
    opening the file, never from contention. *)
Lemma TryLock_error_is_from_open name w ok e h :
  wf w →
  value (run answer (flock.TryLock (fresh_handle name)) w) = Done (ok, Some e, h) →
  ok = false ∧ e = EACCES ∧ dirents w !! name = None ∧ name ∈ readonly w.
Proof.
  intros Hw.
  destruct (dirents w !! name) as [ino |] eqn:Hd.
  - destruct (flocks w !! ino) as [owner |] eqn:Hfl.
    + by erewrite TryLock_contended by eauto using wf_owner.
    + by erewrite TryLock_existing by eauto.
  - destruct (decide (name ∈ readonly w)) as [Hro | Hro].
    + rewrite TryLock_refused by done. by intros [= <- <- <-].
    + by rewrite TryLock_creates by eauto using wf_no_lock.
Qed.

(** C6: two handles on the same, initially absent path; [L1.TryLock],
    [L2.TryLock], [L1.Unlock], [L2.TryLock], [L2.Unlock] return [(true, nil)],
    [(false, nil)], [nil], [(true, nil)], [nil], and afterwards there is no
    artifact at the path.  The path's directory accepts files. *)
Theorem TestTryLock_passes name w :
  wf w →
  dirents w !! name = None →
  name ∉ readonly w →
  value (run answer (TestTryLock name) w)
  = Done [RTry true None; RTry false None; RErr None; RTry true None;
          RErr None]
  ∧ dirents (world (run answer (TestTryLock name) w)) !! name = None.
Proof.
  intros Hw Hd Hro. unfold TestTryLock.
  change (flock.New name) with (mret (M := prog) (fresh_handle name)).
  rewrite !ret_bind.
  erewrite run_bind_Done by (apply TryLock_creates; lookups).
  cbv beta match.
  erewrite run_bind_Done by (eapply TryLock_contended; lookups).
  cbv beta match.
  erewrite run_bind_Done by (eapply Unlock_holder; lookups).
  cbv beta match.
  erewrite run_bind_Done by (eapply TryLock_creates; lookups).
  cbv beta match.
  erewrite run_bind_Done by (eapply Unlock_holder; lookups).
  cbv beta match. cbn. by rewrite lookup_delete_eq.
Qed.

Lemma TestTryLock_passes_witness :
  wf boot
  ∧ dirents boot !! testLockPath = None
  ∧ (testLockPath ∉ readonly boot)
  ∧ value (run answer (TestTryLock testLockPath) boot)
    = Done [RTry true None; RTry false None; RErr None; RTry true None;
            RErr None]
  ∧ dirents (world (run answer (TestTryLock testLockPath) boot))
    !! testLockPath = None.
Proof.
  assert (testLockPath ∉ readonly boot) as Hro by (vm_compute; discriminate).
  split; [exact wf_boot |]. split; [reflexivity |]. split; [exact Hro |].
  apply (TestTryLock_passes testLockPath boot).
  - exact wf_boot.
  - reflexivity.
  - exact Hro.
Defined.

(* ================================================================== *)
(** ** Construction and the promoted methods *)
(* ================================================================== *)

(** C9: [New path] asks nothing of the machine and cannot fail: on every
    machine it returns a handle bound to [path], not holding, and leaves the
    machine as it was; two handles made for one path are made the same
    way. *)
Theorem New_does_no_IO
    {W} (ans : ∀ s : sys, W → option (resp s * W)) (name : string) (w : W) :
  run ans (flock.New (F := flockExt.gofrs) name) w = (Done (fresh_handle name), w, [])
  ∧ flock.Path (fresh_handle name) = name
  ∧ flockExt.l (flock.ext (fresh_handle name)) = false
  ∧ run ans (lock1 ← flock.New (F := flockExt.gofrs) name;
             lock2 ← flock.New (F := flockExt.gofrs) name;
             mret (lock1, lock2)) w
    = (Done (fresh_handle name, fresh_handle name), w, []).
Proof. done. Qed.

(** C10: [TryLock], [Lock] and [Path] of the package are those of the
    embedded lock, with the same result, the same effect on the machine and
    the same system calls, on every machine and for every embedded lock. *)
Theorem promoted_methods_are_the_embedded_ones
    {W} (ans : ∀ s : sys, W → option (resp s * W))
    {F} `{!flockExt.Flock F} (l : flock.Flock F) (w : W) :
  flock.Path l = flockExt.Path (flock.ext l)
  ∧ run ans (flock.TryLock l) w =
    (let x := run ans (flockExt.TryLock (flock.ext l)) w in
     (result_map (λ '(ok, e, f), (ok, e, flock.mk f)) (value x),
      world x, trace x))
  ∧ run ans (flock.Lock l) w =
    (let x := run ans (flockExt.Lock (flock.ext l)) w in
     (result_map (λ '(e, f), (e, flock.mk f)) (value x), world x, trace x)).
Proof. split; [done |]. split; [apply run_TryLock | apply run_Lock]. Qed.

(** [Unlock] is not the embedded one: it also removes the file. *)
Lemma Unlock_is_overridden :
  run answer (flock.Unlock holder) holding ≠
  (let x := run answer (flockExt.Unlock (flock.ext holder)) holding in
   (result_map (λ '(e, f), (e, flock.mk f)) (value x), world x, trace x)).
Proof. intros Heq. apply (f_equal trace) in Heq. vm_compute in Heq. discriminate. Qed.

(* ================================================================== *)
(** ** More on [Unlock] *)
(* ================================================================== *)
Import tests.

Lemma gofrs_Unlock_not_holding f w :
  flockExt.l f = false →
  run answer (flockExt.gofrs_Unlock f) w = (Done (None, f), w, []).
Proof. intros Hl. unfold flockExt.gofrs_Unlock. by rewrite Hl. Qed.

Lemma run_Unlock_not_holding (h : Handle) w :
  flockExt.l (flock.ext h) = false →
  run answer (flock.Unlock h) w
  = (Done (None, h), (sys_unlink (flock.Path h) w).2,
     [SysUnlink (flock.Path h)]).
Proof.
  intros Hl. rewrite run_Unlock. cbn [answer].
  destruct (sys_unlink (flock.Path h) w) as [r w1].
  cbn [flockExt.Unlock flockExt.gofrs_Flock].
  rewrite gofrs_Unlock_not_holding by done. by destruct h.
Qed.

(** X1: a handle that does not hold the lock is released with one system
    call, the removal of its path, whose answer is dropped: the result is
    [nil], the handle comes back as it was, and no description and no lock
    of the machine is touched. *)
Theorem Unlock_without_holding (h : Handle) w :
  flockExt.l (flock.ext h) = false →
  run answer (flock.Unlock h) w
  = (Done (None, h), (sys_unlink (flock.Path h) w).2,
     [SysUnlink (flock.Path h)])
  ∧ ofiles (world (run answer (flock.Unlock h) w)) = ofiles w
  ∧ flocks (world (run answer (flock.Unlock h) w)) = flocks w.
Proof.
  intros Hl. pose proof (run_Unlock_not_holding h w Hl) as Hrun.
  split; [done |]. rewrite Hrun. apply sys_unlink_keeps.
Qed.

Lemma Unlock_without_holding_witness :
  flockExt.l (flock.ext (fresh_handle testLockPath)) = false
  ∧ run answer (flock.Unlock (fresh_handle testLockPath)) holding
    = (Done (None, fresh_handle testLockPath),
       (sys_unlink (flock.Path (fresh_handle testLockPath)) holding).2,
       [SysUnlink (flock.Path (fresh_handle testLockPath))])
  ∧ ofiles (world (run answer (flock.Unlock (fresh_handle testLockPath))
                     holding)) = ofiles holding
  ∧ flocks (world (run answer (flock.Unlock (fresh_handle testLockPath))
                     holding)) = flocks holding.
Proof.
  split; [reflexivity |].
  apply (Unlock_without_holding (fresh_handle testLockPath) holding).
  reflexivity.
Defined.

Lemma sys_flock_LOCK_UN_returns fd w :
  ∃ e w', sys_flock fd LOCK_UN w = Some (e, w').
Proof.
  unfold sys_flock. destruct (ofiles w !! fd) as [ino |]; [| eauto].
  destruct (decide (flocks w !! ino = Some fd)); eauto.
Qed.

Lemma sys_flock_LOCK_EX_NB_returns fd w :
  ∃ e w', sys_flock fd LOCK_EX_NB w = Some (e, w').
Proof.
  unfold sys_flock. destruct (ofiles w !! fd) as [ino |]; [| eauto].
  destruct (flocks w !! ino) as [owner |]; [| eauto].
  destruct (decide (owner = fd)); [eauto |].
  rewrite decide_True by done. eauto.
Qed.

Lemma gofrs_Unlock_returns f w :
  ∃ e f', value (run answer (flockExt.gofrs_Unlock f) w) = Done (e, f').
Proof.
  unfold flockExt.gofrs_Unlock. destruct (flockExt.l f); [| by eexists _, _].
  destruct (flockExt.fh f) as [fd |]; [| by eexists _, _]. cbn.
  destruct (sys_flock_LOCK_UN_returns fd w) as (e & w' & ->).
  destruct e; cbn; by eexists _, _.
Qed.

Lemma Unlock_returns (h : Handle) w :
  ∃ e h', value (run answer (flock.Unlock h) w) = Done (e, h').
Proof.
  rewrite run_Unlock. cbn [answer].
  destruct (sys_unlink (flock.Path h) w) as [r w1].
  destruct (gofrs_Unlock_returns (flock.ext h) w1) as (e & f' & Hv).
  exists e, (flock.mk f'). cbn in *. unfold value in *. cbn in *.
  change (flockExt.Unlock (flock.ext h)) with
    (flockExt.gofrs_Unlock (flock.ext h)).
  by rewrite Hv.
Qed.

(** X2: [Unlock] never waits: on every machine and for every handle it
    returns, with the error of the embedded release. *)
Theorem Unlock_never_blocks (h : Handle) w :
  ∃ e h', value (run answer (flock.Unlock h) w) = Done (e, h').
Proof. apply Unlock_returns. Qed.

Lemma sys_flock_UN_others fd w e w' :
  sys_flock fd LOCK_UN w = Some (e, w') →
  ofiles w' = ofiles w
  ∧ ∀ ino owner, flocks w !! ino = Some owner → owner ≠ fd →
                 flocks w' !! ino = Some owner.
Proof.
  unfold sys_flock. destruct (ofiles w !! fd) as [ino' |];
    [| by intros [= <- <-]].
  destruct (decide (flocks w !! ino' = Some fd)) as [Hown | Hown];
    intros [= <- <-]; [| done]. split; [done |]. cbn.
  intros ino owner Hl Hne. rewrite lookup_delete.
  destruct (decide (ino' = ino)); congruence.
Qed.

Lemma sys_close_others fd w :
  (∀ fd', fd' ≠ fd → ofiles (sys_close fd w) !! fd' = ofiles w !! fd')
  ∧ ∀ ino owner, flocks w !! ino = Some owner → owner ≠ fd →
                 flocks (sys_close fd w) !! ino = Some owner.
Proof.
  unfold sys_close. destruct (ofiles w !! fd) as [ino' |]; [| done]. cbn.
  split.
  - intros fd' Hne. by rewrite lookup_delete_ne.
  - intros ino owner Hl Hne.
    destruct (decide (flocks w !! ino' = Some fd)); [| done].
    rewrite lookup_delete. destruct (decide (ino' = ino)); congruence.
Qed.

(** The embedded release works on the handle's own description only. *)
Lemma gofrs_Unlock_others f w :
  (∀ fd, flockExt.fh f ≠ Some fd →
         ofiles (world (run answer (flockExt.gofrs_Unlock f) w)) !! fd
         = ofiles w !! fd)
  ∧ ∀ ino owner, flocks w !! ino = Some owner → flockExt.fh f ≠ Some owner →
                 flocks (world (run answer (flockExt.gofrs_Unlock f) w)) !! ino
                 = Some owner.
Proof.
  unfold flockExt.gofrs_Unlock. destruct (flockExt.l f); [| done].
  destruct (flockExt.fh f) as [fd |]; [| done]. cbn.
  destruct (sys_flock fd LOCK_UN w) as [[e w1] |] eqn:Hf; [| done].
  apply sys_flock_UN_others in Hf as [Ho Hl].
  destruct e; cbn.
  - split; [by rewrite Ho |]. intros ino owner ??. apply Hl; congruence.
  - destruct (sys_close_others fd w1) as [Hco Hcl]. split.
    + intros fd' Hne. rewrite Hco by congruence. by rewrite Ho.
    + intros ino owner ??. apply Hcl; [| congruence]. apply Hl; congruence.
Qed.

Lemma sys_unlink_other_names name w n :
  n ≠ name → dirents (sys_unlink name w).2 !! n = dirents w !! n.
Proof.
  intros Hne. unfold sys_unlink. destruct (dirents w !! name); [| done].
  destruct (decide (name ∈ readonly w)); [done |]. cbn.
  by rewrite lookup_delete_ne.
Qed.

Lemma run_Unlock_world (h : Handle) w :
  world (run answer (flock.Unlock h) w)
  = world (run answer (flockExt.gofrs_Unlock (flock.ext h))
             (sys_unlink (flock.Path h) w).2).
Proof.
  rewrite run_Unlock. cbn [answer].
  by destruct (sys_unlink (flock.Path h) w) as [r w1].
Qed.

(** X3: [Unlock] removes no name but its own: every other entry of the
    directory is after the release what it was before. *)
Theorem Unlock_keeps_other_names (h : Handle) w n :
  n ≠ flock.Path h →
  dirents (world (run answer (flock.Unlock h) w)) !! n = dirents w !! n.
Proof.
  intros Hne. rewrite run_Unlock_world, gofrs_Unlock_dirents.
  by apply sys_unlink_other_names.
Qed.

Lemma Unlock_keeps_other_names_witness :
  "/tmp/other" ≠ flock.Path holder
  ∧ dirents (world (run answer (flock.Unlock holder) holding)) !! "/tmp/other"
    = dirents holding !! "/tmp/other".
Proof.
  split; [discriminate |].
  apply (Unlock_keeps_other_names holder holding "/tmp/other").
  discriminate.
Defined.

(** X4: [Unlock] gives back no lock but its own: a lock that is held through
    another description than the handle's is still held through it after
    the release, and that description is still open on the same file. *)
Theorem Unlock_keeps_other_locks (h : Handle) w ino owner :
  flocks w !! ino = Some owner →
  flockExt.fh (flock.ext h) ≠ Some owner →
  flocks (world (run answer (flock.Unlock h) w)) !! ino = Some owner
  ∧ ofiles (world (run answer (flock.Unlock h) w)) !! owner
    = ofiles w !! owner.
Proof.
  intros Hl Hne. rewrite run_Unlock_world.
  destruct (sys_unlink_keeps (flock.Path h) w) as [Ho Hf].
  destruct (gofrs_Unlock_others (flock.ext h) (sys_unlink (flock.Path h) w).2)
    as [Hoth Hlk].
  split.
  - apply Hlk; [| done]. by rewrite Hf.
  - rewrite Hoth by done. by rewrite Ho.
Qed.

Lemma Unlock_keeps_other_locks_witness :
  flocks holding !! 0 = Some 0
  ∧ flockExt.fh (flock.ext (fresh_handle testLockPath)) ≠ Some 0
  ∧ flocks (world (run answer (flock.Unlock (fresh_handle testLockPath))
                     holding)) !! 0 = Some 0
  ∧ ofiles (world (run answer (flock.Unlock (fresh_handle testLockPath))
                     holding)) !! 0 = ofiles holding !! 0.
Proof.
  split; [vm_compute; reflexivity |]. split; [discriminate |].
  apply (Unlock_keeps_other_locks (fresh_handle testLockPath) holding 0 0).
  - vm_compute; reflexivity.
  - discriminate.
Defined.

(** A holder's release on any machine, whether or not the removal works. *)
Lemma Unlock_holder_any name fd w ino :
  ofiles w !! fd = Some ino → flocks w !! ino = Some fd →
  run answer (flock.Unlock (handle_on name fd)) w =
  (Done (None, fresh_handle name),
   mkOS (dirents (sys_unlink name w).2) (readonly w) (delete fd (ofiles w))
        (delete ino (flocks w)) (next_ino w) (next_fd w),
   [SysUnlink name; SysFlock fd LOCK_UN; SysClose fd]).
Proof.
  intros Hof Hfl. rewrite run_Unlock.
  cbn [answer flock.Path flock.ext flockExt.Path flockExt.gofrs_Flock
       flockExt.path handle_on flockExt.Unlock].
  assert (∃ e d, sys_unlink name w
                 = (e, mkOS d (readonly w) (ofiles w) (flocks w) (next_ino w)
                            (next_fd w))) as (e & d & Hu).
  { unfold sys_unlink. destruct (dirents w !! name); [| destruct w; eauto].
    destruct (decide (name ∈ readonly w)); [destruct w |]; eauto. }
  rewrite Hu. by erewrite gofrs_Unlock_holder.
Qed.

(** X5: a holder's [Unlock] returns [nil] and an unlocked handle without a
    description; afterwards the handle's description is closed, the file it
    was open on is unlocked and the handle is no longer in the held state,
    whether or not the lock file could be removed. *)
Theorem Unlock_of_a_holder (h : Handle) w :
  held w h = true →
  value (run answer (flock.Unlock h) w)
  = Done (None, fresh_handle (flock.Path h))
  ∧ held (world (run answer (flock.Unlock h) w)) h = false
  ∧ ∃ fd ino, flockExt.fh (flock.ext h) = Some fd
              ∧ ofiles w !! fd = Some ino
              ∧ ofiles (world (run answer (flock.Unlock h) w)) !! fd = None
              ∧ flocks (world (run answer (flock.Unlock h) w)) !! ino = None.
Proof.
  intros Hheld. destruct (held_inv w h Hheld) as (fd & ino & Hh & Hof & Hfl).
  rewrite Hh. change (flock.mk (flockExt.mk (flock.Path h) (Some fd) true))
    with (handle_on (flock.Path h) fd).
  rewrite (Unlock_holder_any _ fd w ino) by done.
  split; [done |]. split.
  - unfold held, owns. cbn. by rewrite lookup_delete_eq.
  - exists fd, ino. cbn. by rewrite !lookup_delete_eq.
Qed.

Lemma Unlock_of_a_holder_witness :
  held holding holder = true
  ∧ value (run answer (flock.Unlock holder) holding)
    = Done (None, fresh_handle (flock.Path holder))
  ∧ held (world (run answer (flock.Unlock holder) holding)) holder = false
  ∧ ∃ fd ino, flockExt.fh (flock.ext holder) = Some fd
              ∧ ofiles holding !! fd = Some ino
              ∧ ofiles (world (run answer (flock.Unlock holder) holding))
                !! fd = None
              ∧ flocks (world (run answer (flock.Unlock holder) holding))
                !! ino = None.
Proof.
  split; [vm_compute; reflexivity |].
  apply (Unlock_of_a_holder holder holding). vm_compute; reflexivity.
Defined.

(** X6: release enables re-acquisition.  When a handle holds the lock of the
    file its path names, then after its [Unlock] a [TryLock] of a new handle
    on the same path succeeds: on the old file if the removal was refused,
    on a new one otherwise. *)
Theorem TryLock_after_Unlock name fd w :
  wf w → facts name w (Locked fd) →
  ∃ fd',
    value (run answer (flock.TryLock (fresh_handle name))
             (world (run answer (flock.Unlock (handle_on name fd)) w)))
    = Done (true, None, handle_on name fd').
Proof.
  intros Hw (ino & Hd & Hof & Hfl).
  pose proof (wf_run (flock.Unlock (handle_on name fd)) w Hw) as Hw'.
  rewrite (Unlock_holder_any name fd w ino) in * by done.
  unfold world in *. cbn [fst snd] in *.
  unfold sys_unlink in *. rewrite Hd in *.
  destruct (decide (name ∈ readonly w)) as [Hro | Hro];
    cbn [fst snd dirents] in *.
  - erewrite TryLock_existing; [by eexists | done |]. cbn.
    apply lookup_delete_eq.
  - erewrite TryLock_creates; [by eexists | | done |].
    + cbn. apply lookup_delete_eq.
    + by apply (wf_no_lock _ _ Hw').
Qed.

Lemma facts_holding : facts testLockPath holding (Locked 0).
Proof. exists 0. repeat split; vm_compute; reflexivity. Qed.

Lemma TryLock_after_Unlock_witness :
  wf holding ∧ facts testLockPath holding (Locked 0)
  ∧ ∃ fd',
      value (run answer (flock.TryLock (fresh_handle testLockPath))
               (world (run answer (flock.Unlock (handle_on testLockPath 0))
                         holding)))
      = Done (true, None, handle_on testLockPath fd').
Proof.
  split; [exact wf_holding |]. split; [exact facts_holding |].
  apply (TryLock_after_Unlock testLockPath 0 holding).
  - exact wf_holding.
  - exact facts_holding.
Defined.

(** X7: releasing twice in a row.  After a holder's [Unlock] on a path whose
    directory allows the removal, a second [Unlock] of the handle it returned
    answers [nil] and leaves the machine exactly as it was. *)
Theorem Unlock_twice (h : Handle) w :
  held w h = true → flock.Path h ∉ readonly w →
  let h1 := fresh_handle (flock.Path h) in
  let w1 := world (run answer (flock.Unlock h) w) in
  value (run answer (flock.Unlock h) w) = Done (None, h1)
  ∧ run answer (flock.Unlock h1) w1
    = (Done (None, h1), w1, [SysUnlink (flock.Path h)]).
Proof.
  intros Hheld Hro h1 w1.
  assert (value (run answer (flock.Unlock h) w) = Done (None, h1)) as Hv.
  { destruct (held_inv w h Hheld) as (fd & ino & Hh & Hof & Hfl).
    rewrite Hh at 1.
    change (flock.mk (flockExt.mk (flock.Path h) (Some fd) true))
      with (handle_on (flock.Path h) fd).
    by rewrite (Unlock_holder_any _ fd w ino). }
  split; [done |].
  rewrite (run_Unlock_not_holding h1 w1 eq_refl).
  pose proof (Unlock_removes h w Hro) as Hgone. fold w1 in Hgone.
  unfold sys_unlink. cbn [flock.Path h1 fresh_handle flock.ext flockExt.Path
                          flockExt.gofrs_Flock flockExt.path].
  change (flockExt.path (flock.ext h)) with (flock.Path h).
  by rewrite Hgone.
Qed.

Lemma Unlock_twice_witness :
  held holding holder = true
  ∧ (flock.Path holder ∉ readonly holding)
  ∧ value (run answer (flock.Unlock holder) holding)
    = Done (None, fresh_handle (flock.Path holder))
  ∧ run answer (flock.Unlock (fresh_handle (flock.Path holder)))
      (world (run answer (flock.Unlock holder) holding))
    = (Done (None, fresh_handle (flock.Path holder)),
       world (run answer (flock.Unlock holder) holding),
       [SysUnlink (flock.Path holder)]).
Proof.
  assert (flock.Path holder ∉ readonly holding) as Hro
    by (vm_compute; discriminate).
  split; [vm_compute; reflexivity |]. split; [exact Hro |].
  apply (Unlock_twice holder holding); [vm_compute; reflexivity | exact Hro].
Defined.

(* ================================================================== *)
(** ** [lockAndCount] *)
(* ================================================================== *)

Lemma AddInt64_back n : int64 n → AddInt64 (AddInt64 n 1) (-1) = n.
Proof.
  unfold int64, AddInt64, wrap64. intros Hn.
  replace ((n + 1 + 2 ^ 63) `mod` 2 ^ 64 - 2 ^ 63 + -1 + 2 ^ 63)%Z
    with ((n + 1 + 2 ^ 63) `mod` 2 ^ 64 - 1)%Z by lia.
  rewrite Zminus_mod_idemp_l.
  replace (n + 1 + 2 ^ 63 - 1)%Z with (n + 2 ^ 63)%Z by lia.
  rewrite Z.mod_small by lia. lia.
Qed.

Lemma TryLock_never_blocks (h : Handle) w :
  ∃ ok e h', value (run answer (flock.TryLock h) w) = Done (ok, e, h').
Proof.
  rewrite run_TryLock. cbn [flockExt.TryLock flockExt.gofrs_Flock].
  destruct h as [[name fh l]]. cbn [flock.ext]. unfold flockExt.gofrs_TryLock.
  cbn [flockExt.l flockExt.fh flockExt.path].
  destruct l; [by eexists _, _, _ |].
  destruct fh as [fd |].
  - cbn. destruct (sys_flock_LOCK_EX_NB_returns fd w) as (e & w' & ->).
    destruct e as [[] |]; cbn; by eexists _, _, _.
  - cbn. destruct (sys_open name w) as [[fd | err] w1]; cbn;
      [| by eexists _, _, _].
    destruct (sys_flock_LOCK_EX_NB_returns fd w1) as (e & w' & ->).
    destruct e as [[] |]; cbn; by eexists _, _, _.
Qed.

(** X8: [lockAndCount] always returns (it never waits for the lock), and
    what it returns is 0 or the counter's value after its own increment. *)
Theorem lockAndCount_returns lockpath w lockerCount :
  ∃ x, (lockAndCount lockpath w lockerCount).1.1.1 = Done x
       ∧ (x = 0%Z ∨ x = AddInt64 lockerCount 1).
Proof.
  unfold lockAndCount.
  change (flock.New lockpath) with (mret (M := prog) (fresh_handle lockpath)).
  rewrite ret_bind.
  destruct (TryLock_never_blocks (fresh_handle lockpath) w)
    as (ok & e & h' & Hv).
  destruct (run answer (flock.TryLock (fresh_handle lockpath)) w)
    as [[r w1] t1]. cbn in Hv. subst r.
  destruct ok; cbn [negb]; [| exists 0%Z; auto].
  destruct (Unlock_returns h' w1) as (e' & h'' & Hu).
  destruct (run answer (flock.Unlock h') w1) as [[r w2] t2]. cbn in Hu.
  subst r. cbn. eauto.
Qed.

(** X9: when another description holds the lock of the file at the path,
    [lockAndCount] returns 0 and stops there: the counter is not touched,
    the lock file is not removed, no lock changes hands, and the system calls
    are an open, one refused lock request and a close. *)
Theorem lockAndCount_contended lockpath w lockerCount ino owner :
  wf w →
  dirents w !! lockpath = Some ino →
  flocks w !! ino = Some owner →
  ∃ w',
    lockAndCount lockpath w lockerCount
    = (Done 0%Z, w', lockerCount,
       [SysOpen lockpath; SysFlock (next_fd w) LOCK_EX_NB;
        SysClose (next_fd w)])
    ∧ dirents w' = dirents w ∧ flocks w' = flocks w
    ∧ ofiles w' = ofiles w.
Proof.
  intros Hw Hd Hfl. unfold lockAndCount.
  change (flock.New lockpath) with (mret (M := prog) (fresh_handle lockpath)).
  rewrite ret_bind.
  erewrite TryLock_contended by eauto using wf_owner. cbn [negb].
  eexists. split; [done |]. cbn. repeat split.
  rewrite delete_insert_id; [done |].
  destruct (ofiles w !! next_fd w) as [i |] eqn:Ho; [| done].
  apply (wf_ofiles w Hw) in Ho. lia.
Qed.

Lemma lockAndCount_contended_witness :
  wf holding
  ∧ dirents holding !! testLockPath = Some 0
  ∧ flocks holding !! 0 = Some 0
  ∧ ∃ w',
      lockAndCount testLockPath holding 0
      = (Done 0%Z, w', 0%Z,
         [SysOpen testLockPath; SysFlock (next_fd holding) LOCK_EX_NB;
          SysClose (next_fd holding)])
      ∧ dirents w' = dirents holding ∧ flocks w' = flocks holding
      ∧ ofiles w' = ofiles holding.
Proof.
  split; [exact wf_holding |].
  split; [vm_compute; reflexivity |]. split; [vm_compute; reflexivity |].
  apply (lockAndCount_contended testLockPath holding 0 0 0).
  - exact wf_holding.
  - vm_compute; reflexivity.
  - vm_compute; reflexivity.
Defined.

(** The machine with its numbering advanced by one file and one
    description. *)
Lemma lockAndCount_free_run lockpath w lockerCount :
  wf w → int64 lockerCount →
  dirents w !! lockpath = None → lockpath ∉ readonly w →
  lockAndCount lockpath w lockerCount
  = (Done (AddInt64 lockerCount 1),
     mkOS (dirents w) (readonly w) (ofiles w) (flocks w)
          (S (next_ino w)) (S (next_fd w)),
     lockerCount,
     [SysOpen lockpath; SysFlock (next_fd w) LOCK_EX_NB;
      SysUnlink lockpath; SysFlock (next_fd w) LOCK_UN;
      SysClose (next_fd w)]).
Proof.
  intros Hw Hn Hd Hro. unfold lockAndCount.
  change (flock.New lockpath) with (mret (M := prog) (fresh_handle lockpath)).
  rewrite ret_bind.
  rewrite TryLock_creates by eauto using wf_no_lock. cbn [negb].
  erewrite Unlock_holder by lookups. cbn [result_map].
  rewrite AddInt64_back by done.
  cbn [dirents readonly ofiles flocks next_ino next_fd].
  rewrite !delete_insert_id; [done | | |].
  - by apply wf_no_lock.
  - destruct (ofiles w !! next_fd w) as [i |] eqn:Ho; [| done].
    apply (wf_ofiles w Hw) in Ho. lia.
  - done.
Qed.

(** X10: alone on a path without a lock file, [lockAndCount] returns the
    counter plus one (1 from a counter at 0) and puts everything back: the
    counter has its old value and the machine has the names, descriptions
    and locks it had before; the lock file it created is gone. *)
Theorem lockAndCount_alone lockpath w lockerCount :
  wf w → int64 lockerCount →
  dirents w !! lockpath = None → lockpath ∉ readonly w →
  ∃ w' t,
    lockAndCount lockpath w lockerCount
    = (Done (AddInt64 lockerCount 1), w', lockerCount, t)
    ∧ dirents w' = dirents w ∧ ofiles w' = ofiles w ∧ flocks w' = flocks w
    ∧ wf w'.
Proof.
  intros Hw Hn Hd Hro. rewrite lockAndCount_free_run by done.
  eexists _, _. split; [done |]. do 3 (split; [done |]).
  destruct Hw as [Hd' Ho' Hf']. split; cbn.
  - intros name ino Hi. apply Hd' in Hi. lia.
  - intros fd ino Hi. apply Ho' in Hi. lia.
  - done.
Qed.

Lemma int64_0 : int64 0.
Proof. unfold int64. lia. Qed.

Lemma lockAndCount_alone_witness :
  wf boot ∧ int64 0 ∧ dirents boot !! testLockPath = None
  ∧ (testLockPath ∉ readonly boot)
  ∧ ∃ w' t,
      lockAndCount testLockPath boot 0
      = (Done (AddInt64 0 1), w', 0%Z, t)
      ∧ dirents w' = dirents boot ∧ ofiles w' = ofiles boot
      ∧ flocks w' = flocks boot ∧ wf w'.
Proof.
  assert (testLockPath ∉ readonly boot) as Hro by (vm_compute; discriminate).
  split; [exact wf_boot |]. split; [exact int64_0 |].
  split; [reflexivity |]. split; [exact Hro |].
  apply (lockAndCount_alone testLockPath boot 0); auto using wf_boot, int64_0.
Defined.

Lemma wf_advance w :
  wf w →
  wf (mkOS (dirents w) (readonly w) (ofiles w) (flocks w) (S (next_ino w))
           (S (next_fd w))).
Proof.
  intros [Hd Ho Hf]. split; cbn; [| | done].
  - intros name ino Hi. apply Hd in Hi. lia.
  - intros fd ino Hi. apply Ho in Hi. lia.
Qed.

Lemma lockAndCount_times_alone k lockpath w lockerCount :
  wf w → int64 lockerCount →
  dirents w !! lockpath = None → lockpath ∉ readonly w →
  ∃ w',
    lockAndCount_times k lockpath w lockerCount
    = (replicate k (Done (AddInt64 lockerCount 1)), w', lockerCount)
    ∧ dirents w' = dirents w ∧ ofiles w' = ofiles w ∧ flocks w' = flocks w.
Proof.
  intros Hw Hn. revert w Hw. induction k as [| k IH]; intros w Hw Hd Hro.
  - by exists w.
  - cbn [lockAndCount_times]. rewrite lockAndCount_free_run by done.
    destruct (IH _ (wf_advance w Hw) Hd Hro) as (w' & -> & ? & ? & ?).
    by exists w'.
Qed.

(** X11: [lockAndCount] called again and again with nobody else running, as
    one [locker] alone would, returns the same value every time (1 from a
    counter at 0): each call leaves the counter, the names, the descriptions
    and the locks as it found them, so the next call meets the same
    conditions. *)
Theorem lockAndCount_again_and_again k lockpath w lockerCount :
  wf w → int64 lockerCount →
  dirents w !! lockpath = None → lockpath ∉ readonly w →
  ∃ w',
    lockAndCount_times k lockpath w lockerCount
    = (replicate k (Done (AddInt64 lockerCount 1)), w', lockerCount)
    ∧ dirents w' = dirents w ∧ ofiles w' = ofiles w ∧ flocks w' = flocks w.
Proof. apply lockAndCount_times_alone. Qed.

Lemma lockAndCount_again_and_again_witness :
  wf boot ∧ int64 0 ∧ dirents boot !! testLockPath = None
  ∧ (testLockPath ∉ readonly boot)
  ∧ ∃ w',
      lockAndCount_times 50 testLockPath boot 0
      = (replicate 50 (Done (AddInt64 0 1)), w', 0%Z)
      ∧ dirents w' = dirents boot ∧ ofiles w' = ofiles boot
      ∧ flocks w' = flocks boot.
Proof.
  assert (testLockPath ∉ readonly boot) as Hro by (vm_compute; discriminate).
  split; [exact wf_boot |]. split; [exact int64_0 |].
  split; [reflexivity |]. split; [exact Hro |].
  apply (lockAndCount_again_and_again 50 testLockPath boot 0);
    auto using wf_boot, int64_0.
Defined.

(** X12: the earlier [lockAndCount], which takes the gofrs lock itself and
    releases it by a deferred [os.Remove(lock.Path()); lock.Unlock()], and
    the present one, which goes through the package, do the same on every
    machine and counter: same value, same machine and counter afterwards,
    same system calls. *)
Theorem lockAndCount_bitcask_is_lockAndCount lockpath w lockerCount :
  lockAndCount_bitcask lockpath w lockerCount
  = lockAndCount lockpath w lockerCount.
Proof.
  unfold lockAndCount_bitcask, lockAndCount.
  change (flock.New lockpath) with (mret (M := prog) (fresh_handle lockpath)).
  change (flockExt.New lockpath)
    with (mret (M := prog) (flockExt.mk lockpath None false)).
  rewrite !ret_bind, run_TryLock. cbn [fresh_handle flock.ext].
  destruct (run answer (flockExt.TryLock (flockExt.mk lockpath None false)) w)
    as [[[[[ok e] f] |] w1] t1]; cbn [value world trace result_map fst snd];
    [| done].
  destruct ok; cbn [negb]; [| done].
  rewrite run_Unlock, run_bind, run_Remove.
  cbn [flock.Path flock.ext answer flockExt.Path flockExt.Unlock
       flockExt.gofrs_Flock].
  destruct (sys_unlink (flockExt.path f) w1) as [r w2]. cbn [run_then].
  destruct (run answer (flockExt.gofrs_Unlock f) w2)
    as [[[[e' f'] |] w3] t2]; by cbn.
Qed.

(* ================================================================== *)
(** ** [locker] *)
(* ================================================================== *)

Lemma wrap64_small z : int64 z → wrap64 z = z.
Proof.
  unfold int64, wrap64. intros Hz. rewrite Z.mod_small by lia. lia.
Qed.

Lemma counts_Count x turns : counts (Count x :: turns) = x :: counts turns.
Proof. done. Qed.

Lemma count_pos_cons x xs :
  Z.of_nat (length (filter (λ y, (0 < y)%Z) (x :: xs)))
  = ((if (0 <? x)%Z then 1 else 0)
     + Z.of_nat (length (filter (λ y, (0 < y)%Z) xs)))%Z.
Proof.
  rewrite filter_cons. destruct (decide (0 < x)%Z) as [Hx | Hx].
  - rewrite (proj2 (Z.ltb_lt 0 x)) by done. cbn [length]. lia.
  - rewrite (proj2 (Z.ltb_ge 0 x)) by lia. lia.
Qed.

(** What the loop has looked at, and what its variables are then, whatever
    they were at the start. *)
Lemma lockloop_inv turns :
  ∀ s f m v rest,
    lockloop turns s f m = Some (v, rest) →
    ∃ used,
      turns = used ++ rest
      ∧ (m ≤ max v)%Z
      ∧ (∀ x, x ∈ counts used → (1 < x)%Z → (x ≤ max v)%Z)
      ∧ (max v = m ∨ (max v ∈ counts used) ∧ (1 < max v)%Z)
      ∧ (if timedOut v
         then ∃ u, used = u ++ [Timeout] ∧ (Timeout ∉ u)
                   ∧ (Z.of_nat (length (filter (λ x, (0 < x)%Z) (counts u)))
                      < s)%Z
         else (Timeout ∉ used)
              ∧ ((s ≤ 0)%Z ∧ used = []
                 ∨ (0 < s)%Z
                   ∧ Z.of_nat (length (filter (λ x, (0 < x)%Z) (counts used)))
                     = s)).
Proof.
  induction turns as [| o turns IH]; intros s f m v rest; cbn [lockloop].
  - destruct (0 <? s)%Z eqn:Hs; [done |]. intros [= <- <-].
    exists []. cbn. apply Z.ltb_ge in Hs.
    repeat split; [lia | by intros x ?%elem_of_nil | by left |
                   by intros ?%elem_of_nil | by left].
  - destruct (0 <? s)%Z eqn:Hs.
    2:{ intros [= <- <-]. exists []. cbn. apply Z.ltb_ge in Hs.
        repeat split; [lia | by intros x ?%elem_of_nil | by left |
                       by intros ?%elem_of_nil | by left]. }
    apply Z.ltb_lt in Hs. destruct o as [| x].
    + intros [= <- <-]. exists [Timeout]. cbn.
      repeat split; [lia | by intros x ?%elem_of_nil | by left |].
      exists []. repeat split; [by intros ?%elem_of_nil | cbn; lia].
    + intros Hloop.
      assert (∃ s' f' m',
        lockloop turns s' f' m' = Some (v, rest)
        ∧ s' = (if (0 <? x)%Z then s - 1 else s)%Z
        ∧ m' = (if (1 <? x)%Z then (if (m <? x)%Z then x else m) else m))
        as (s' & f' & m' & Hrec & Hs' & Hm').
      { destruct (1 <? x)%Z; eauto 10. }
      clear Hloop.
      destruct (IH _ _ _ _ _ Hrec) as (used & -> & Hle & Hall & Hmax & Hend).
      exists (Count x :: used). split; [done |].
      assert ((m ≤ m')%Z ∧ ((1 < x)%Z → (x ≤ m')%Z)
              ∧ (m' = m ∨ m' = x ∧ (1 < x)%Z)) as (Hmm & Hxm & Hm'').
      { subst m'. destruct (1 <? x)%Z eqn:H1; [| lia].
        apply Z.ltb_lt in H1. destruct (m <? x)%Z eqn:H2;
          [apply Z.ltb_lt in H2 | apply Z.ltb_ge in H2]; lia. }
      rewrite counts_Count.
      split; [lia |]. split.
      { intros y [-> | Hy]%elem_of_cons Hy1; [| by apply Hall]. lia. }
      split.
      { destruct Hmax as [-> | [Hin Hgt]];
          [| right; split; [by right | done]].
        destruct Hm'' as [-> | [-> ?]]; [by left |].
        right. split; [by left | done]. }
      assert (Z.of_nat (length (filter (λ y, (0 < y)%Z) (x :: counts used)))
              = ((if (0 <? x)%Z then 1 else 0)
                 + Z.of_nat (length (filter (λ y, (0 < y)%Z) (counts used))))%Z)
        as Hcount.
      { apply count_pos_cons. }
      destruct (timedOut v).
      * destruct Hend as (u & -> & Hu & Hlt). exists (Count x :: u).
        split; [done |]. split.
        { by intros [[=] | ?]%elem_of_cons. }
        rewrite counts_Count.
        assert (Z.of_nat (length (filter (λ y, (0 < y)%Z) (x :: counts u)))
                = ((if (0 <? x)%Z then 1 else 0)
                   + Z.of_nat (length (filter (λ y, (0 < y)%Z) (counts u))))%Z)
          as ->.
        { apply count_pos_cons. }
        destruct (0 <? x)%Z; lia.
      * destruct Hend as (Hno & Hsucc). split.
        { by intros [[=] | ?]%elem_of_cons. }
        right. split; [done |]. rewrite Hcount.
        destruct Hsucc as [[Hle' ->] | [Hlt Heq]].
        -- cbn. destruct (0 <? x)%Z; lia.
        -- rewrite Heq. destruct (0 <? x)%Z; lia.
Qed.

Lemma count_above_cons x xs :
  Z.of_nat (length (filter (λ y, (1 < y)%Z) (x :: xs)))
  = ((if (1 <? x)%Z then 1 else 0)
     + Z.of_nat (length (filter (λ y, (1 < y)%Z) xs)))%Z.
Proof.
  rewrite filter_cons. destruct (decide (1 < x)%Z) as [Hx | Hx].
  - rewrite (proj2 (Z.ltb_lt 1 x)) by done. cbn [length]. lia.
  - rewrite (proj2 (Z.ltb_ge 1 x)) by lia. lia.
Qed.

(** As long as [failCount] does not overflow it counts the values above 1
    the loop has looked at. *)
Lemma lockloop_failCount turns :
  ∀ s f m v rest,
    (0 ≤ f)%Z → (f + Z.of_nat (length turns) < 2 ^ 63)%Z →
    lockloop turns s f m = Some (v, rest) →
    ∃ used,
      turns = used ++ rest
      ∧ failCount v
        = (f + Z.of_nat (length (filter (λ x, (1 < x)%Z) (counts used))))%Z.
Proof.
  induction turns as [| o turns IH]; intros s f m v rest Hf Hbound;
    cbn [lockloop].
  - destruct (0 <? s)%Z; [done |]. intros [= <- <-]. exists []. cbn.
    split; [done | lia].
  - destruct (0 <? s)%Z.
    2:{ intros [= <- <-]. exists []. cbn. split; [done | lia]. }
    cbn [length] in Hbound. destruct o as [| x].
    + intros [= <- <-]. exists [Timeout]. cbn. split; [done | lia].
    + rewrite wrap64_small by (unfold int64; lia).
      destruct (1 <? x)%Z eqn:Hx; intros Hrec;
        apply IH in Hrec as (used & -> & ->); try lia;
        exists (Count x :: used); (split; [done |]);
        rewrite counts_Count, count_above_cons, Hx; lia.
Qed.

(** X13: the verdict of [locker].  As long as [failCount] cannot overflow
    (fewer than 2^63 turns), [locker] calls [t.Fail()] exactly when it timed
    out or one of the values [lockAndCount] returned to it was above 1. *)
Theorem locker_fails_iff turns successfulLockCount v rest :
  (Z.of_nat (length turns) < 2 ^ 63)%Z →
  locker turns successfulLockCount = Some (v, rest) →
  ∃ used,
    turns = used ++ rest
    ∧ (Fail v = true
       ↔ timedOut v = true ∨ ∃ x, x ∈ counts used ∧ (1 < x)%Z).
Proof.
  intros Hbound Hrun.
  destruct (lockloop_failCount turns _ _ _ _ _ (Z.le_refl 0) Hbound Hrun)
    as (used & -> & Hfc).
  exists used. split; [done |]. unfold Fail. rewrite orb_true_iff, Hfc.
  rewrite Z.ltb_lt.
  assert ((0 < 0 + Z.of_nat (length (filter (λ x, (1 < x)%Z) (counts used))))%Z
          ↔ ∃ x, x ∈ counts used ∧ (1 < x)%Z) as ->; [| done].
  split.
  - intros Hpos.
    destruct (filter (λ x, (1 < x)%Z) (counts used)) as [| x l] eqn:Hfl;
      [cbn in Hpos; lia |].
    assert (x ∈ filter (λ x, (1 < x)%Z) (counts used)) as Hx
      by (rewrite Hfl; left).
    apply list_elem_of_filter in Hx as [? ?]. eauto.
  - intros (x & Hx & Hgt).
    assert (x ∈ filter (λ x, (1 < x)%Z) (counts used)) as Hin
      by (by apply list_elem_of_filter).
    destruct (filter (λ x, (1 < x)%Z) (counts used));
      [by apply elem_of_nil in Hin | cbn [length]; lia].
Qed.

Lemma locker_fails_iff_witness :
  (Z.of_nat (length [Count 1; Count 0; Count 2; Count 1; Count 1])
   < 2 ^ 63)%Z
  ∧ locker [Count 1; Count 0; Count 2; Count 1; Count 1] 3
    = Some (mkVerdict false 1 2, [Count 1])
  ∧ ∃ used,
      [Count 1; Count 0; Count 2; Count 1; Count 1] = used ++ [Count 1]
      ∧ (Fail (mkVerdict false 1 2) = true
         ↔ timedOut (mkVerdict false 1 2) = true
           ∨ ∃ x, x ∈ counts used ∧ (1 < x)%Z).
Proof.
  split; [vm_compute; reflexivity |]. split; [reflexivity |].
  apply (locker_fails_iff [Count 1; Count 0; Count 2; Count 1; Count 1] 3
           (mkVerdict false 1 2) [Count 1]).
  - vm_compute; reflexivity.
  - reflexivity.
Defined.

(** X14: [max] when [locker] leaves its loop is at least every value above 1
    that [lockAndCount] returned to it, and it is 0 or one of those
    values. *)
Theorem locker_max turns successfulLockCount v rest :
  locker turns successfulLockCount = Some (v, rest) →
  ∃ used,
    turns = used ++ rest
    ∧ (∀ x, x ∈ counts used → (1 < x)%Z → (x ≤ max v)%Z)
    ∧ (max v = 0%Z ∨ (max v ∈ counts used) ∧ (1 < max v)%Z).
Proof.
  intros Hrun.
  destruct (lockloop_inv turns _ _ _ _ _ Hrun)
    as (used & -> & _ & Hall & Hmax & _).
  by exists used.
Qed.

Lemma locker_max_witness :
  locker [Count 1; Count 3; Count 2; Count 1] 3
  = Some (mkVerdict false 2 3, [Count 1])
  ∧ ∃ used,
      [Count 1; Count 3; Count 2; Count 1] = used ++ [Count 1]
      ∧ (∀ x, x ∈ counts used → (1 < x)%Z
              → (x ≤ max (mkVerdict false 2 3))%Z)
      ∧ (max (mkVerdict false 2 3) = 0%Z
         ∨ (max (mkVerdict false 2 3) ∈ counts used)
           ∧ (1 < max (mkVerdict false 2 3))%Z).
Proof.
  split; [reflexivity |].
  apply (locker_max [Count 1; Count 3; Count 2; Count 1] 3
           (mkVerdict false 2 3) [Count 1]).
  reflexivity.
Defined.

(** X15: when [locker] leaves its loop.  Without a timeout it leaves after
    exactly [successfulLockCount] calls of [lockAndCount] that returned a
    positive value (after none at all when [successfulLockCount] is not
    positive); with a timeout it had seen fewer, and the timeout is the last
    thing it looked at. *)
Theorem locker_leaves_after turns successfulLockCount v rest :
  locker turns successfulLockCount = Some (v, rest) →
  ∃ used,
    turns = used ++ rest
    ∧ (if timedOut v
       then ∃ u, used = u ++ [Timeout] ∧ (Timeout ∉ u)
                 ∧ (Z.of_nat (length (filter (λ x, (0 < x)%Z) (counts u)))
                    < successfulLockCount)%Z
       else (Timeout ∉ used)
            ∧ ((successfulLockCount ≤ 0)%Z ∧ used = []
               ∨ (0 < successfulLockCount)%Z
                 ∧ Z.of_nat (length (filter (λ x, (0 < x)%Z) (counts used)))
                   = successfulLockCount)).
Proof.
  intros Hrun.
  destruct (lockloop_inv turns _ _ _ _ _ Hrun)
    as (used & -> & _ & _ & _ & Hend).
  by exists used.
Qed.

Lemma locker_leaves_after_witness :
  locker [Count 1; Count 0; Timeout; Count 1] 2
  = Some (mkVerdict true 0 0, [Count 1])
  ∧ ∃ used,
      [Count 1; Count 0; Timeout; Count 1] = used ++ [Count 1]
      ∧ ∃ u, used = u ++ [Timeout] ∧ (Timeout ∉ u)
             ∧ (Z.of_nat (length (filter (λ x, (0 < x)%Z) (counts u))) < 2)%Z.
Proof.
  split; [reflexivity |].
  apply (locker_leaves_after [Count 1; Count 0; Timeout; Count 1] 2
           (mkVerdict true 0 0) [Count 1]).
  reflexivity.
Defined.

Lemma locker_all_ones k :
  locker (replicate k (Count 1)) (Z.of_nat k) = Some (mkVerdict false 0 0, []).
Proof.
  unfold locker. induction k as [| k IH]; [done |].
  rewrite replicate_S. cbn [lockloop].
  rewrite (proj2 (Z.ltb_lt 0 (Z.of_nat (S k)))) by lia.
  cbn [Z.ltb Z.compare]. replace (Z.of_nat (S k) - 1)%Z with (Z.of_nat k) by lia.
  done.
Qed.

(** One [locker] alone passes.  On a path without a lock file, from a
    counter at 0 and with nobody else running, each of the
    [successfulLockCount] calls of [lockAndCount] returns 1, and [locker]
    over turns that all return 1 leaves its loop after the last of them
    without timeout and with [failCount] and [max] at 0: no [t.Fail()]. *)
Lemma locker_alone_passes k lockpath w :
  wf w → dirents w !! lockpath = None → lockpath ∉ readonly w →
  (lockAndCount_times k lockpath w 0).1.1 = replicate k (Done 1%Z)
  ∧ (lockAndCount_times k lockpath w 0).2 = 0%Z
  ∧ locker (replicate k (Count 1)) (Z.of_nat k)
    = Some (mkVerdict false 0 0, [])
  ∧ Fail (mkVerdict false 0 0) = false.
Proof.
  intros Hw Hd Hro.
  destruct (lockAndCount_times_alone k lockpath w 0 Hw int64_0 Hd Hro)
    as (w' & -> & _).
  split; [done |]. split; [done |]. split; [apply locker_all_ones | done].
Qed.

Lemma locker_alone_passes_witness :
  wf boot ∧ dirents boot !! testLockPath = None
  ∧ (testLockPath ∉ readonly boot)
  ∧ (lockAndCount_times 50 testLockPath boot 0).1.1
    = replicate 50 (Done 1%Z)
  ∧ (lockAndCount_times 50 testLockPath boot 0).2 = 0%Z
  ∧ locker (replicate 50 (Count 1)) (Z.of_nat 50)
    = Some (mkVerdict false 0 0, [])
  ∧ Fail (mkVerdict false 0 0) = false.
Proof.
  assert (testLockPath ∉ readonly boot) as Hro by (vm_compute; discriminate).
  split; [exact wf_boot |]. split; [reflexivity |]. split; [exact Hro |].
  apply (locker_alone_passes 50 testLockPath boot);
    [exact wf_boot | reflexivity | exact Hro].
Defined.

(* ================================================================== *)
(** ** [TestLock] under every interleaving *)
(* ================================================================== *)





(* ================================================================== *)
(** ** A release by a handle that does not hold, on any machine *)
(* ================================================================== *)

(** X17: what a release without holding does to a holder, on any machine.
    When some handle holds the lock of the file at a path whose directory
    allows removal, the [Unlock] of another handle on that path, which holds
    nothing, returns [nil], the holder still holds, and yet the next
    [TryLock] on the path succeeds: the file the holder has locked has lost
    its name, and the new handle locks a new file. *)
Theorem stray_Unlock_then_TryLock name fd w :
  wf w → facts name w (Locked fd) → name ∉ readonly w →
  let w1 := world (run answer (flock.Unlock (fresh_handle name)) w) in
  let w2 := world (run answer (flock.TryLock (fresh_handle name)) w1) in
  value (run answer (flock.Unlock (fresh_handle name)) w)
  = Done (None, fresh_handle name)
  ∧ value (run answer (flock.TryLock (fresh_handle name)) w1)
    = Done (true, None, handle_on name (next_fd w))
  ∧ held w2 (handle_on name fd) = true
  ∧ held w2 (handle_on name (next_fd w)) = true
  ∧ fd ≠ next_fd w.
Proof.
  intros Hw (ino & Hd & Hof & Hfl) Hro w1 w2.
  pose proof (run_Unlock_not_holding (fresh_handle name) w eq_refl) as Hrun.
  assert (w1 = mkOS (delete name (dirents w)) (readonly w) (ofiles w)
                    (flocks w) (next_ino w) (next_fd w)) as Hw1.
  { unfold w1. rewrite Hrun. cbn [world fst snd flock.Path fresh_handle
      flock.ext flockExt.Path flockExt.gofrs_Flock flockExt.path].
    by erewrite sys_unlink_present. }
  assert (run answer (flock.TryLock (fresh_handle name)) w1
          = (Done (true, None, handle_on name (next_fd w)),
             mkOS (<[name := next_ino w]> (delete name (dirents w)))
                  (readonly w) (<[next_fd w := next_ino w]> (ofiles w))
                  (<[next_ino w := next_fd w]> (flocks w))
                  (S (next_ino w)) (S (next_fd w)),
             [SysOpen name; SysFlock (next_fd w) LOCK_EX_NB])) as Htry.
  { rewrite Hw1. rewrite TryLock_creates; [done | | done |].
    - cbn. apply lookup_delete_eq.
    - cbn. by apply wf_no_lock. }
  pose proof (wf_ofiles w Hw _ _ Hof) as [Hlt Hino].
  split; [by rewrite Hrun |]. split; [by rewrite Htry |].
  unfold w2. rewrite Htry. unfold held, owns. cbn.
  rewrite lookup_insert_ne by lia. rewrite Hof.
  rewrite lookup_insert_ne by lia. rewrite Hfl.
  rewrite !lookup_insert_eq.
  repeat split; try (by apply bool_decide_eq_true); lia.
Qed.

Lemma stray_Unlock_then_TryLock_witness :
  wf holding ∧ facts testLockPath holding (Locked 0)
  ∧ (testLockPath ∉ readonly holding)
  ∧ value (run answer (flock.Unlock (fresh_handle testLockPath)) holding)
    = Done (None, fresh_handle testLockPath)
  ∧ value (run answer (flock.TryLock (fresh_handle testLockPath))
             (world (run answer (flock.Unlock (fresh_handle testLockPath))
                       holding)))
    = Done (true, None, handle_on testLockPath (next_fd holding))
  ∧ held (world (run answer (flock.TryLock (fresh_handle testLockPath))
                   (world (run answer
                             (flock.Unlock (fresh_handle testLockPath))
                             holding))))
         (handle_on testLockPath 0) = true
  ∧ held (world (run answer (flock.TryLock (fresh_handle testLockPath))
                   (world (run answer
                             (flock.Unlock (fresh_handle testLockPath))
                             holding))))
         (handle_on testLockPath (next_fd holding)) = true
  ∧ 0 ≠ next_fd holding.
Proof.
  assert (testLockPath ∉ readonly holding) as Hro
    by (vm_compute; discriminate).
  split; [exact wf_holding |]. split; [exact facts_holding |].
  split; [exact Hro |].
  exact (stray_Unlock_then_TryLock testLockPath 0 holding wf_holding
           facts_holding Hro).
Defined.

(* ================================================================== *)
(** ** The blocking [Lock] *)
(* ================================================================== *)

Lemma sys_flock_LOCK_EX fd w ino :
  ofiles w !! fd = Some ino →
  sys_flock fd LOCK_EX w
  = match flocks w !! ino with
    | None => Some (None, set_flocks (<[ino := fd]> (flocks w)) w)
    | Some owner => if decide (owner = fd) then Some (None, w) else None
    end.
Proof.
  intros Hof. unfold sys_flock. rewrite Hof.
  destruct (flocks w !! ino) as [owner |]; [| done].
  by destruct (decide (owner = fd)).
Qed.

Lemma Lock_waits name w ino owner :
  wf w → dirents w !! name = Some ino → flocks w !! ino = Some owner →
  value (run answer (flock.Lock (fresh_handle name)) w) = Blocked.
Proof.
  intros Hw Hd Hfl. rewrite run_Lock. cbn [fresh_handle flock.ext]. cbn.
  erewrite sys_open_present by done. cbn.
  rewrite (sys_flock_LOCK_EX _ _ ino) by lookups. cbn. rewrite Hfl.
  by rewrite decide_False by eauto using wf_owner.
Qed.

Lemma Lock_existing name w ino :
  dirents w !! name = Some ino → flocks w !! ino = None →
  run answer (flock.Lock (fresh_handle name)) w =
  (Done (None, handle_on name (next_fd w)),
   mkOS (dirents w) (readonly w) (<[next_fd w := ino]> (ofiles w))
        (<[ino := next_fd w]> (flocks w)) (next_ino w) (S (next_fd w)),
   [SysOpen name; SysFlock (next_fd w) LOCK_EX]).
Proof.
  intros Hd Hfl. rewrite run_Lock. cbn [fresh_handle flock.ext]. cbn.
  erewrite sys_open_present by done. cbn.
  rewrite (sys_flock_LOCK_EX _ _ ino) by lookups. cbn. by rewrite Hfl.
Qed.

Lemma Lock_creates name w :
  dirents w !! name = None → name ∉ readonly w →
  flocks w !! next_ino w = None →
  run answer (flock.Lock (fresh_handle name)) w =
  (Done (None, handle_on name (next_fd w)),
   mkOS (<[name := next_ino w]> (dirents w)) (readonly w)
        (<[next_fd w := next_ino w]> (ofiles w))
        (<[next_ino w := next_fd w]> (flocks w))
        (S (next_ino w)) (S (next_fd w)),
   [SysOpen name; SysFlock (next_fd w) LOCK_EX]).
Proof.
  intros Hd Hro Hfl. rewrite run_Lock. cbn [fresh_handle flock.ext]. cbn.
  rewrite sys_open_absent by done. cbn.
  rewrite (sys_flock_LOCK_EX _ _ (next_ino w)) by lookups. cbn.
  by rewrite Hfl.
Qed.

(** X18: the blocking [Lock] of a new handle, with nobody else running, on a
    path that can be opened.  It does not return exactly when another
    description holds the lock of the file at the path; otherwise it returns
    [nil] and the handle holds the lock. *)
Theorem Lock_blocks_iff_held name w :
  wf w →
  is_Some (dirents w !! name) ∨ name ∉ readonly w →
  (value (run answer (flock.Lock (fresh_handle name)) w) = Blocked
   ↔ ∃ ino owner, dirents w !! name = Some ino ∧ flocks w !! ino = Some owner)
  ∧ (value (run answer (flock.Lock (fresh_handle name)) w) ≠ Blocked →
     value (run answer (flock.Lock (fresh_handle name)) w)
     = Done (None, handle_on name (next_fd w))
     ∧ held (world (run answer (flock.Lock (fresh_handle name)) w))
            (handle_on name (next_fd w)) = true).
Proof.
  intros Hw Huse.
  destruct (dirents w !! name) as [ino |] eqn:Hd.
  - destruct (flocks w !! ino) as [owner |] eqn:Hfl.
    + rewrite (Lock_waits name w ino owner) by done.
      split; [| done]. split; [eauto | done].
    + rewrite (Lock_existing name w ino) by done. cbn.
      split; [split; [done | intros (? & ? & [= <-] & ?); congruence] |].
      intros _. split; [done |]. unfold held, owns. cbn.
      rewrite !lookup_insert_eq. by apply bool_decide_eq_true.
  - destruct Huse as [[? [=]] | Hro].
    rewrite (Lock_creates name w) by eauto using wf_no_lock. cbn.
    split; [split; [done | by intros (? & ? & [=] & ?)] |].
    intros _. split; [done |]. unfold held, owns. cbn.
    rewrite !lookup_insert_eq. by apply bool_decide_eq_true.
Qed.

Lemma Lock_blocks_iff_held_witness :
  wf holding
  ∧ (is_Some (dirents holding !! testLockPath)
     ∨ testLockPath ∉ readonly holding)
  ∧ value (run answer (flock.Lock (fresh_handle testLockPath)) holding)
    = Blocked.
Proof.
  assert (is_Some (dirents holding !! testLockPath)
          ∨ testLockPath ∉ readonly holding) as Huse
    by (left; exists 0; vm_compute; reflexivity).
  split; [exact wf_holding |]. split; [exact Huse |].
  apply (Lock_blocks_iff_held testLockPath holding wf_holding Huse).
  exists 0, 0. split; vm_compute; reflexivity.
Defined.

(* ================================================================== *)
(** ** The embedded release keeps the lock exclusive *)
(* ================================================================== *)

(** X19: callers that release with the embedded [l.Flock.Unlock()] only,
    which the embedding makes available beside the package's own [Unlock],
    keep the lock exclusive: from any well-formed machine and under any
    schedule of their system calls, at most one handle on the path is in the
    held state.  It is the removal in the package's [Unlock] that gives this
    up. *)
Theorem exclusive_without_the_removal name scripts schedule w c :
  wf w → embedded_only scripts →
  exec schedule (start (spawn name <$> scripts) w) = Some c →
  holders name c ≤ 1.
Proof.
  intros Hw Hs Hexec. eapply inv_holders, exec_inv; [| done].
  by apply inv_start.
Qed.

Lemma exclusive_without_the_removal_witness :
  ∃ c,
    wf boot
    ∧ embedded_only [[OpTryLock; OpFlockUnlock]; [OpTryLock]; [OpTryLock]]
    ∧ exec race_schedule_embedded
        (start (spawn testLockPath <$>
                  [[OpTryLock; OpFlockUnlock]; [OpTryLock]; [OpTryLock]]) boot)
      = Some c
    ∧ holders testLockPath c ≤ 1.
Proof.
  assert (embedded_only [[OpTryLock; OpFlockUnlock]; [OpTryLock]; [OpTryLock]])
    as Hs by (repeat constructor; discriminate).
  destruct (exec race_schedule_embedded
              (start (spawn testLockPath <$>
                        [[OpTryLock; OpFlockUnlock]; [OpTryLock]; [OpTryLock]])
                     boot)) as [c |] eqn:Hrun.
  - exists c. split; [exact wf_boot |]. split; [exact Hs |].
    split; [reflexivity |].
    exact (exclusive_without_the_removal testLockPath _ race_schedule_embedded
             boot c wf_boot Hs Hrun).
  - exfalso. vm_compute in Hrun. discriminate.
Defined.
